(** * Session coordinator of the cube race server

    A shallow embedding of [src/server/sockets/handlers/gameHandler.ts].

    The handler closes over one socket and works on two process-wide arrays,
    [deps.players] and [deps.rooms].  Both hold references to mutable
    objects: a [Player] is shared between the registry and the room that
    lists it, and the same [Room] may be pushed into [deps.rooms] more than
    once.  The embedding therefore keeps an explicit store for each class
    (an object is an address into the store) and the two arrays hold
    addresses.  Everything a handler sends is appended to an outbox. *)

From Stdlib Require Import ZArith.
From stdpp Require Import base list strings.

Local Open Scope string_scope.
Local Open Scope list_scope.
Local Open Scope Z_scope.

(** Modelled from the spec: [types/RoomState.ts] is not part of the sources;
    the handler only names [GAME_NOT_STARTED], the other two phases are the
    ones of the Room state machine (section 3 and 4.3). *)
Inductive RoomState : Type :=
  | GAME_NOT_STARTED
  | GAME_IN_PROGRESS
  | GAME_FINISHED.

Definition RoomState_eqb (a b : RoomState) : bool :=
  match a, b with
  | GAME_NOT_STARTED, GAME_NOT_STARTED => true
  | GAME_IN_PROGRESS, GAME_IN_PROGRESS => true
  | GAME_FINISHED, GAME_FINISHED => true
  | _, _ => false
  end.

Module Player.

(** Modelled from the spec: [types/player.ts] is not part of the sources.
    The fields are those of section 3; the handler reads [id] and writes
    [status], [solveTime] and [isDNF]. *)
Record t : Type := mk
  { id : string;
    username : string;
    status : RoomState;
    solveTime : Z;
    isDNF : bool }.

(** Modelled from the spec: the constructor [new Player(id, username)];
    [solveTime] is 0 until a solve completes, and the other two fields start
    at the values the handler resets them to when a player leaves a room. *)
Definition new (i u : string) : t :=
  {| id := i; username := u; status := GAME_NOT_STARTED;
     solveTime := 0; isDNF := false |}.

(** The three assignments of [roomJoined], lines 148-150. *)
Definition reset (p : t) : t :=
  {| id := id p; username := username p; status := GAME_NOT_STARTED;
     solveTime := 0; isDNF := false |}.

Definition setDNF (p : t) : t :=
  {| id := id p; username := username p; status := status p;
     solveTime := solveTime p; isDNF := true |}.

Definition setResult (time : Z) (p : t) : t :=
  {| id := id p; username := username p; status := status p;
     solveTime := time; isDNF := false |}.

(** A player has finished once a result is recorded ([solveTime] is 0 until a
    solve completes) or the player did not finish. *)
Definition finished (p : t) : bool := negb (solveTime p =? 0) || isDNF p.

End Player.

Module Room.

(** Modelled from the spec: [server/room.ts] is not part of the sources.
    The fields are those of section 3; [players] holds references to
    Player objects, here addresses into the player store. *)
Record t : Type := mk
  { roomID : string;
    players : list nat;
    roomStatus : RoomState;
    maxPlayerCount : Z;
    rematch : list string }.

(** Modelled from the spec: the constructor [new Room(roomID, io)].  A new
    room is empty and waiting; its capacity is not given by the sources and
    is taken as a parameter. *)
Definition new (rid : string) (capacity : Z) : t :=
  {| roomID := rid; players := []; roomStatus := GAME_NOT_STARTED;
     maxPlayerCount := capacity; rematch := [] |}.

Definition getMaxPlayerCount (r : t) : Z := maxPlayerCount r.

Definition setPlayers (l : list nat) (r : t) : t :=
  {| roomID := roomID r; players := l; roomStatus := roomStatus r;
     maxPlayerCount := maxPlayerCount r; rematch := rematch r |}.

Definition setStatus (s : RoomState) (r : t) : t :=
  {| roomID := roomID r; players := players r; roomStatus := s;
     maxPlayerCount := maxPlayerCount r; rematch := rematch r |}.

Definition setRematch (l : list string) (r : t) : t :=
  {| roomID := roomID r; players := players r; roomStatus := roomStatus r;
     maxPlayerCount := maxPlayerCount r; rematch := l |}.

End Room.

(** ** Outbound notifications *)

Inductive Target : Type :=
  | ToSocket (sid : string)      (* socket.emit(...) *)
  | ToChannel (name : string).   (* io.to(name).emit(...) *)

Inductive Message : Type :=
  | MsgJoinInvalid                            (* 'join:invalid' *)
  | MsgPlayerInitialized (sid : string)       (* 'player:initialized' *)
  | MsgRoomFound (rid : string)               (* 'room:found' *)
  | MsgGameStart                              (* scramble broadcast of the Room *)
  | MsgInput (origin key : string)            (* keystroke relay of the Room *)
  | MsgSolveComplete (sid : string) (time : Z). (* completion broadcast of the Room *)

(** ** The process state *)

Record World : Type := mkWorld
  { pheap : list Player.t;            (* Player objects, by address *)
    rheap : list Room.t;              (* Room objects, by address *)
    deps_players : list nat;          (* deps['players'] *)
    deps_rooms : list nat;            (* deps['rooms'] *)
    channels : list (string * string);(* (socket id, channel) set by socket.join *)
    outbox : list (Target * Message) }.

(** Modelled from the spec: [deps] is created outside the handler; the
    registry and the directory are empty when the process starts. *)
Definition initWorld : World := mkWorld [] [] [] [] [] [].

Definition setPheap (h : list Player.t) (w : World) : World :=
  mkWorld h (rheap w) (deps_players w) (deps_rooms w) (channels w) (outbox w).

Definition setRheap (h : list Room.t) (w : World) : World :=
  mkWorld (pheap w) h (deps_players w) (deps_rooms w) (channels w) (outbox w).

Definition pushPlayer (a : nat) (w : World) : World :=
  mkWorld (pheap w) (rheap w) (deps_players w ++ [a]) (deps_rooms w)
          (channels w) (outbox w).

Definition pushRoom (a : nat) (w : World) : World :=
  mkWorld (pheap w) (rheap w) (deps_players w) (deps_rooms w ++ [a])
          (channels w) (outbox w).

Definition setChannels (c : list (string * string)) (w : World) : World :=
  mkWorld (pheap w) (rheap w) (deps_players w) (deps_rooms w) c (outbox w).

Definition emit (t : Target) (m : Message) (w : World) : World :=
  mkWorld (pheap w) (rheap w) (deps_players w) (deps_rooms w) (channels w)
          (outbox w ++ [(t, m)]).

Definition updPlayer (a : nat) (f : Player.t -> Player.t) (w : World) : World :=
  setPheap (alter f a (pheap w)) w.

Definition updRoom (a : nat) (f : Room.t -> Room.t) (w : World) : World :=
  setRheap (alter f a (rheap w)) w.

(** [socket.join(name)] and [socket.leave(name)]: the channels of a socket
    form a set. *)
Definition socket_join (sid name : string) (w : World) : World :=
  if bool_decide ((sid, name) ∈ channels w) then w
  else setChannels (channels w ++ [(sid, name)]) w.

Definition socket_leave (sid name : string) (w : World) : World :=
  setChannels (filter (fun c => c ≠ (sid, name)) (channels w)) w.

(** ** Reading through references *)

(** [refs.find(pred)] on an array of object references: the first reference
    whose object satisfies [pred], together with the object it points to. *)
Fixpoint findRef {A : Type} (h : list A) (pred : A -> bool) (refs : list nat)
  : option (nat * A) :=
  match refs with
  | [] => None
  | a :: rest =>
      match h !! a with
      | Some x => if pred x then Some (a, x) else findRef h pred rest
      | None => findRef h pred rest
      end
  end.

(** [refs.some(pred)] *)
Definition someRef {A : Type} (h : list A) (pred : A -> bool) (refs : list nat)
  : bool :=
  match findRef h pred refs with Some _ => true | None => false end.

(** The Player objects a room lists, in order. *)
Definition occupants (w : World) (r : Room.t) : list Player.t :=
  omap (fun a => pheap w !! a) (Room.players r).

(** [(p) => p.id === sid] *)
Definition hasID (sid : string) (p : Player.t) : bool :=
  String.eqb (Player.id p) sid.

(** [r.players.some((p) => p.id === sid)] *)
Definition hasPlayer (w : World) (sid : string) (r : Room.t) : bool :=
  someRef (pheap w) (hasID sid) (Room.players r).

(** The matchmaking predicate of lines 58 and 101:
    [r.players.length <= r.getMaxPlayerCount() - 1 &&
     r.roomStatus == RoomState.GAME_NOT_STARTED]. *)
Definition joinable (r : Room.t) : bool :=
  (Z.of_nat (length (Room.players r)) <=? Room.getMaxPlayerCount r - 1)
  && RoomState_eqb (Room.roomStatus r) GAME_NOT_STARTED.

(** [deps['players'].find((p) => p.id === sid)] *)
Definition findPlayer (sid : string) (w : World) : option (nat * Player.t) :=
  findRef (pheap w) (hasID sid) (deps_players w).

(** [deps['rooms'].find((r) => r.players.some((p) => p.id === sid))] *)
Definition findContaining (sid : string) (w : World) : option (nat * Room.t) :=
  findRef (rheap w) (hasPlayer w sid) (deps_rooms w).

(** [deps['rooms'].find((r) => r.roomID === rid)] *)
Definition findByID (rid : string) (w : World) : option (nat * Room.t) :=
  findRef (rheap w) (fun r => String.eqb (Room.roomID r) rid) (deps_rooms w).

(** [deps['rooms'].find(joinable)] *)
Definition findJoinable (w : World) : option (nat * Room.t) :=
  findRef (rheap w) joinable (deps_rooms w).

(** [deps['rooms'].some(r => r.roomID === rid)] *)
Definition someRoomID (rid : string) (w : World) : bool :=
  someRef (rheap w) (fun r => String.eqb (Room.roomID r) rid) (deps_rooms w).

(** ** Operations of the Room class

    Modelled from the spec: the methods of [server/room.ts], which is not
    part of the sources; each follows its entry in section 4.3.  A room is
    named by its address [ra]; an operation on an address that holds no room
    does nothing.  Where an operation speaks of "the occupant" with a given
    id, every listed Player object with that id is meant. *)

(** Modelled from the spec: [addPlayer(socket, player)] appends to the
    occupant list and does not check the capacity. *)
Definition addPlayer (ra pa : nat) (w : World) : World :=
  updRoom ra (fun r => Room.setPlayers (Room.players r ++ [pa]) r) w.

(** Modelled from the spec: [removePlayer(id)] removes the occupant. *)
Definition removePlayer (ra : nat) (sid : string) (w : World) : World :=
  updRoom ra
    (fun r => Room.setPlayers
                (List.filter (fun a => negb (someRef (pheap w) (hasID sid) [a]))
                             (Room.players r)) r) w.

(** Modelled from the spec: [startGame()] moves the room to
    [GAME_IN_PROGRESS] and broadcasts the scramble when the occupant count
    equals [maxPlayerCount], and does nothing otherwise. *)
Definition startGame (ra : nat) (w : World) : World :=
  match rheap w !! ra with
  | Some r =>
      if Z.of_nat (length (Room.players r)) =? Room.getMaxPlayerCount r
      then emit (ToChannel (Room.roomID r)) MsgGameStart
             (updRoom ra (Room.setStatus GAME_IN_PROGRESS) w)
      else w
  | None => w
  end.

(** Modelled from the spec: [handleInput(id, key)] forwards the keystroke,
    tagged with its origin, on the room's channel. *)
Definition handleInput (ra : nat) (sender key : string) (w : World) : World :=
  match rheap w !! ra with
  | Some r => emit (ToChannel (Room.roomID r)) (MsgInput sender key) w
  | None => w
  end.

(** Apply [f] to every Player object listed by room [ra] whose id is [sid]. *)
Definition updOccupants (ra : nat) (sid : string) (f : Player.t -> Player.t)
    (w : World) : World :=
  match rheap w !! ra with
  | Some r =>
      setPheap
        (imap (fun a p => if bool_decide (a ∈ Room.players r) && hasID sid p
                          then f p else p) (pheap w)) w
  | None => w
  end.

(** Modelled from the spec: the transition [GAME_IN_PROGRESS] to
    [GAME_FINISHED] once all players have finished or are DNF. *)
Definition finishIfDone (ra : nat) (w : World) : World :=
  match rheap w !! ra with
  | Some r =>
      if RoomState_eqb (Room.roomStatus r) GAME_IN_PROGRESS
         && forallb Player.finished (occupants w r)
      then updRoom ra (Room.setStatus GAME_FINISHED) w
      else w
  | None => w
  end.

(** Modelled from the spec: [playerSolveComplete(id)] records the result of
    the occupant (time, DNF = false) and broadcasts the completion.  The time
    comes from the room's clock and is an input of the model. *)
Definition playerSolveComplete (ra : nat) (sid : string) (time : Z) (w : World)
  : World :=
  match rheap w !! ra with
  | Some r =>
      finishIfDone ra
        (emit (ToChannel (Room.roomID r)) (MsgSolveComplete sid time)
           (updOccupants ra sid (Player.setResult time) w))
  | None => w
  end.

(** Modelled from the spec: [playerDNF(id)] marks the occupant as not
    finished and keeps it in the occupant list. *)
Definition playerDNF (ra : nat) (sid : string) (w : World) : World :=
  finishIfDone ra (updOccupants ra sid Player.setDNF w).

(** Modelled from the spec: [processRematchRequest(id)] adds [id] to the
    acceptance set and answers whether every current occupant is in it. *)
Definition processRematchRequest (ra : nat) (sid : string) (w : World)
  : bool * World :=
  match rheap w !! ra with
  | Some r =>
      let acc := if existsb (String.eqb sid) (Room.rematch r)
                 then Room.rematch r else Room.rematch r ++ [sid] in
      (forallb (fun p => existsb (String.eqb (Player.id p)) acc) (occupants w r),
       updRoom ra (Room.setRematch acc) w)
  | None => (false, w)
  end.

(** ** Inbound events *)

(** The payloads are those of the listeners of lines 11-17.  The results of
    [genRanHex(5)] that a handler would see, in order, and the clock reading
    of a completed solve are inputs of the model. *)
Inductive Event : Type :=
  | EvInitialize (username : string)               (* 'player:initialize' *)
  | EvJoinRandom (draws : list string)             (* 'room:join_random' *)
  | EvJoinRematch (draws : list string)            (* 'room:join_rematch' *)
  | EvJoined (roomID : string)                     (* 'room:joined' *)
  | EvKeyboardInput (socketID key : string)        (* 'keyboard:input' *)
  | EvCompletedSolve (socketID : string) (time : Z)(* 'player:completed_solve' *)
  | EvDisconnect.                                  (* 'disconnect' *)

(** [io.to(socket.id).emit('join:invalid')] *)
Definition reject (sid : string) (w : World) : World :=
  emit (ToChannel sid) MsgJoinInvalid w.

(** Lines 62-66: draw ids until one is not in the directory.  [None] when the
    draws run out first: the loop has not ended within them. *)
Fixpoint freshRoomID (w : World) (draws : list string) : option string :=
  match draws with
  | [] => None
  | d :: rest => if someRoomID d w then freshRoomID w rest else Some d
  end.

Section Handlers.

(** The capacity that [new Room] gives a room. *)
Variable maxPlayers : Z.

(** Lines 23-41.  The branch on [!player] after [new Player] is dead: [new]
    always yields an object. *)
Definition initializePlayer (sid username : string) (w : World) : World :=
  if someRef (pheap w) (hasID sid) (deps_players w) then w
  else
    let username := if String.eqb username "" then "an unnamed cuber"
                    else username in
    let a := length (pheap w) in
    emit (ToSocket sid) (MsgPlayerInitialized sid)
      (pushPlayer a (setPheap (pheap w ++ [Player.new sid username]) w)).

(** Lines 58-71, and again lines 101-114: find a joinable room, else create
    one under a fresh id; then push the room into the directory, whether
    it was found or created.  The result is the room, its id and the new
    state. *)
Definition resolveRoom (draws : list string) (w : World)
  : option (nat * string * World) :=
  match findJoinable w with
  | Some (a, r) => Some (a, Room.roomID r, pushRoom a w)
  | None =>
      match freshRoomID w draws with
      | Some rid =>
          let a := length (rheap w) in
          Some (a, rid,
                pushRoom a (setRheap (rheap w ++ [Room.new rid maxPlayers]) w))
      | None => None
      end
  end.

(** Lines 48-75. *)
Definition joinRandomRoom (sid : string) (draws : list string) (w : World)
  : option World :=
  match findPlayer sid w with
  | None => Some (reject sid w)
  | Some _ =>
      match resolveRoom draws w with
      | Some (_, rid, w1) => Some (emit (ToChannel sid) (MsgRoomFound rid) w1)
      | None => None
      end
  end.

(** Lines 81-119. *)
Definition joinRematchRoom (sid : string) (draws : list string) (w : World)
  : option World :=
  match findPlayer sid w with
  | None => Some (reject sid w)
  | Some _ =>
      match findContaining sid w with
      | None => Some (reject sid w)
      | Some (ra, r) =>
          let '(allPlayersAccepted, w1) := processRematchRequest ra sid w in
          if allPlayersAccepted then
            match resolveRoom draws w1 with
            | Some (_, rid, w2) =>
                Some (emit (ToChannel (Room.roomID r)) (MsgRoomFound rid) w2)
            | None => None
            end
          else Some w1
      end
  end.

(** Lines 143-151: leave the room that lists the socket's player, if any. *)
Definition leaveCurrent (sid : string) (pa : nat) (p : Player.t) (w : World)
  : World :=
  match findContaining sid w with
  | Some (ca, c) =>
      updPlayer pa Player.reset
        (socket_leave sid (Room.roomID c) (removePlayer ca (Player.id p) w))
  | None => w
  end.

(** Lines 153-157: join the channel, enter the room, try to start. *)
Definition enterRoom (sid : string) (pa ra : nat) (r : Room.t) (w : World)
  : World :=
  startGame ra (addPlayer ra pa (socket_join sid (Room.roomID r) w)).

(** Lines 126-158. *)
Definition roomJoined (sid roomID : string) (w : World) : World :=
  match findPlayer sid w with
  | None => reject sid w
  | Some (pa, p) =>
      match findByID roomID w with
      | None => reject sid w
      | Some (ra, r) => enterRoom sid pa ra r (leaveCurrent sid pa p w)
      end
  end.

(** Lines 164-174. *)
Definition handleKeyboardInput (sid senderID key : string) (w : World)
  : World :=
  match findContaining senderID w with
  | None => reject sid w
  | Some (ra, _) => handleInput ra senderID key w
  end.

(** Lines 180-185. *)
Definition handleSolveComplete (sid socketID : string) (time : Z) (w : World)
  : World :=
  match findContaining sid w with
  | None => w
  | Some (ra, _) =>
      if String.eqb sid socketID then playerSolveComplete ra socketID time w
      else w
  end.

(** Lines 191-201. *)
Definition disconnectPlayer (sid : string) (w : World) : World :=
  match findPlayer sid w with
  | None => reject sid w
  | Some (_, p) =>
      match findContaining sid w with
      | Some (ra, _) => playerDNF ra (Player.id p) w
      | None => w
      end
  end.

(** Lines 11-17: the dispatch of one event delivered by socket [sid]. *)
Definition handle (sid : string) (ev : Event) (w : World) : option World :=
  match ev with
  | EvInitialize username => Some (initializePlayer sid username w)
  | EvJoinRandom draws => joinRandomRoom sid draws w
  | EvJoinRematch draws => joinRematchRoom sid draws w
  | EvJoined roomID => Some (roomJoined sid roomID w)
  | EvKeyboardInput socketID key => Some (handleKeyboardInput sid socketID key w)
  | EvCompletedSolve socketID time => Some (handleSolveComplete sid socketID time w)
  | EvDisconnect => Some (disconnectPlayer sid w)
  end.

(** Run a sequence of deliveries, oldest first. *)
Fixpoint run (evs : list (string * Event)) (w : World) : option World :=
  match evs with
  | [] => Some w
  | (sid, ev) :: rest =>
      match handle sid ev w with
      | Some w1 => run rest w1
      | None => None
      end
  end.

(** The states the process can be in. *)
Inductive reachable : World -> Prop :=
  | reach_init : reachable initWorld
  | reach_step w sid ev w1 :
      reachable w -> handle sid ev w = Some w1 -> reachable w1.

End Handlers.

(** ** Predicates on states *)

(** Room [ra] lists a Player object whose id is [sid]. *)
Definition occupies (w : World) (ra : nat) (sid : string) : Prop :=
  exists r a p,
    rheap w !! ra = Some r /\ a ∈ Room.players r /\
    pheap w !! a = Some p /\ Player.id p = sid.

(** The room ids of the directory entries, in directory order. *)
Definition directoryIDs (w : World) : list string :=
  omap (fun a => Room.roomID <$> rheap w !! a) (deps_rooms w).

(** Two states with the same references, the same ids behind the Player
    references, and the same id and occupant list behind the Room
    references. *)
Record sim (w w' : World) : Prop := mkSim
  { sim_ids : forall a, Player.id <$> pheap w' !! a = Player.id <$> pheap w !! a;
    sim_players :
      forall a, Room.players <$> rheap w' !! a = Room.players <$> rheap w !! a;
    sim_roomIDs :
      forall a, Room.roomID <$> rheap w' !! a = Room.roomID <$> rheap w !! a;
    sim_deps_players : deps_players w' = deps_players w;
    sim_deps_rooms : deps_rooms w' = deps_rooms w }.

(** The shape every reachable state has. *)
Record WF (w : World) : Prop := mkWF
  { (* every Room object is in the directory *)
    wf_dir : forall ra, (ra < length (rheap w))%nat -> ra ∈ deps_rooms w;
    (* the registry holds references to Player objects *)
    wf_reg : forall a, a ∈ deps_players w -> (a < length (pheap w))%nat;
    (* a room lists registered players only *)
    wf_occ : forall ra r a,
        rheap w !! ra = Some r -> a ∈ Room.players r -> a ∈ deps_players w;
    (* an id is listed by at most one Room object *)
    wf_one : forall sid ra rb,
        occupies w ra sid -> occupies w rb sid -> ra = rb;
    (* two Room objects have different ids *)
    wf_ids : forall ra rb r r',
        rheap w !! ra = Some r -> rheap w !! rb = Some r' ->
        Room.roomID r = Room.roomID r' -> ra = rb }.

(** What stays from one state to a later one: the two arrays only get longer,
    an object stays at its address, and it keeps its id. *)
Record extends (w w' : World) : Prop := mkExtends
  { ext_deps_players : deps_players w `prefix_of` deps_players w';
    ext_deps_rooms : deps_rooms w `prefix_of` deps_rooms w';
    ext_players : forall a p, pheap w !! a = Some p ->
        exists p', pheap w' !! a = Some p' /\ Player.id p' = Player.id p;
    ext_rooms : forall a r, rheap w !! a = Some r ->
        exists r', rheap w' !! a = Some r' /\ Room.roomID r' = Room.roomID r }.

(** The registry has one entry per Player object and one Player object per
    id. *)
Definition registryOK (w : World) : Prop :=
  NoDup (deps_players w) /\
  forall a b p q,
    a ∈ deps_players w -> b ∈ deps_players w ->
    pheap w !! a = Some p -> pheap w !! b = Some q ->
    Player.id p = Player.id q -> a = b.

(** A socket is only in the channel of a room that lists its id. *)
Definition channelsOK (w : World) : Prop :=
  forall s c, (s, c) ∈ channels w ->
    exists ra r, rheap w !! ra = Some r /\ Room.roomID r = c /\ occupies w ra s.

(** ** A sample session

    Two connections register, and both are matched into the room "00000" of
    capacity 2, which starts. *)
Definition sampleSession : list (string * Event) :=
  [("a", EvInitialize ""); ("b", EvInitialize "bob");
   ("a", EvJoinRandom ["00000"]); ("a", EvJoined "00000");
   ("b", EvJoinRandom []); ("b", EvJoined "00000")].

Definition sampleWorld : World :=
  Eval vm_compute in
    match run 2 sampleSession initWorld with
    | Some w => w
    | None => initWorld
    end.

(** One connection has registered. *)
Definition loneWorld : World :=
  Eval vm_compute in initializePlayer "a" "ann" initWorld.

(** The two players of the sample room finish (one solves, one
    disconnects); the second rematch vote completes the consensus. *)
Definition finishedWorld : World :=
  Eval vm_compute in
    match run 2 [("a", EvCompletedSolve "a" 17); ("b", EvDisconnect);
                 ("a", EvJoinRematch [])] sampleWorld with
    | Some w => w
    | None => initWorld
    end.


(** One connection registers, is matched into the new room "00000" of
    capacity 2 and enters it; the room waits for a second player. *)
Definition lobbyWorld : World :=
  Eval vm_compute in
    match run 2 [("a", EvInitialize "ann"); ("a", EvJoinRandom ["00000"]);
                 ("a", EvJoined "00000")] initWorld with
    | Some w => w
    | None => initWorld
    end.

(** * Properties *)

(** ** Searching an array of references *)

Section FindRef.

Context {A : Type}.
Implicit Types (h : list A) (pred : A -> bool) (refs : list nat).

Lemma findRef_Some h pred refs a x :
  findRef h pred refs = Some (a, x) ->
  a ∈ refs /\ h !! a = Some x /\ pred x = true.
Proof.
  induction refs as [|b rest IH]; simpl; [discriminate|].
  destruct (h !! b) as [y|] eqn:Hb.
  - destruct (pred y) eqn:Hy.
    + intros [= <- <-]. split; [left | auto].
    + intros H. destruct (IH H) as (? & ? & ?).
      split; [by right | auto].
  - intros H. destruct (IH H) as (? & ? & ?).
    split; [by right | auto].
Qed.

Lemma findRef_None h pred refs :
  findRef h pred refs = None <->
  (forall a x, a ∈ refs -> h !! a = Some x -> pred x = false).
Proof.
  induction refs as [|b rest IH]; simpl.
  - split; [|done]. intros _ a x Ha. by apply elem_of_nil in Ha.
  - split.
    + intros H a x Ha Hx. apply elem_of_cons in Ha as [->|Ha].
      * rewrite Hx in H. by destruct (pred x).
      * destruct (h !! b) as [y|]; [destruct (pred y); [done|] |];
          by apply (proj1 IH H a x).
    + intros H. destruct (h !! b) as [y|] eqn:Hb.
      * rewrite (H b y); [|by left|done].
        apply IH. intros a x Ha. apply H. by right.
      * apply IH. intros a x Ha. apply H. by right.
Qed.

Lemma findRef_app h pred l1 l2 :
  findRef h pred (l1 ++ l2) =
  match findRef h pred l1 with
  | Some res => Some res
  | None => findRef h pred l2
  end.
Proof.
  induction l1 as [|b rest IH]; simpl; [done|].
  destruct (h !! b) as [y|]; [destruct (pred y)|]; done.
Qed.

(** The search only depends on the objects the references point to. *)
Lemma findRef_ext h h' pred pred' refs :
  (forall a, a ∈ refs -> h' !! a = h !! a) ->
  (forall a x, a ∈ refs -> h !! a = Some x -> pred' x = pred x) ->
  findRef h' pred' refs = findRef h pred refs.
Proof.
  induction refs as [|b rest IH]; simpl; [done|].
  intros Hh Hp. rewrite (Hh b) by left.
  rewrite IH.
  - destruct (h !! b) as [y|] eqn:Hb; [|done].
    by rewrite (Hp b y) by (done || left).
  - intros a Ha. apply Hh. by right.
  - intros a x Ha. apply Hp. by right.
Qed.

Lemma someRef_true h pred refs :
  someRef h pred refs = true <->
  exists a x, a ∈ refs /\ h !! a = Some x /\ pred x = true.
Proof.
  unfold someRef. destruct (findRef h pred refs) as [[a x]|] eqn:H.
  - split; [|done]. intros _. exists a, x. by apply findRef_Some.
  - split; [done|]. intros (a & x & Ha & Hx & Hp).
    rewrite (proj1 (findRef_None _ _ _) H a x Ha Hx) in Hp. done.
Qed.

Lemma someRef_false h pred refs :
  someRef h pred refs = false <-> findRef h pred refs = None.
Proof. unfold someRef. by destruct (findRef h pred refs). Qed.

End FindRef.

(** ** What the elementary updates leave alone *)

Lemma hasID_spec sid p : hasID sid p = true <-> Player.id p = sid.
Proof. unfold hasID. apply String.eqb_eq. Qed.

Lemma findPlayer_some sid w :
  is_Some (findPlayer sid w) <->
  someRef (pheap w) (hasID sid) (deps_players w) = true.
Proof.
  unfold findPlayer, someRef.
  destruct (findRef _ _ _); split; intros H; try done.
Qed.

(** ** Rejections and silent returns *)

Lemma initializePlayer_dup sid username w :
  is_Some (findPlayer sid w) -> initializePlayer sid username w = w.
Proof.
  intros H. unfold initializePlayer.
  by rewrite (proj1 (findPlayer_some sid w) H).
Qed.

Lemma handleSolveComplete_mismatch sid socketID time w :
  socketID <> sid -> handleSolveComplete sid socketID time w = w.
Proof.
  intros Hne. unfold handleSolveComplete.
  destruct (findContaining sid w) as [[ra r]|]; [|done].
  destruct (String.eqb_spec sid socketID); congruence.
Qed.

Lemma handleSolveComplete_noroom sid socketID time w :
  findContaining sid w = None -> handleSolveComplete sid socketID time w = w.
Proof. unfold handleSolveComplete. by intros ->. Qed.

Lemma handleSolveComplete_own sid time w ra r :
  findContaining sid w = Some (ra, r) ->
  handleSolveComplete sid sid time w = playerSolveComplete ra sid time w.
Proof. unfold handleSolveComplete. intros ->. by rewrite String.eqb_refl. Qed.

(** C3 (amended): an initialize event from a connection that already has a
    Player in the registry leaves the registry and the Player objects as
    they are, and emits nothing: the handler only logs. *)
Theorem initializePlayer_registered_silent sid username w :
  is_Some (findPlayer sid w) ->
  deps_players (initializePlayer sid username w) = deps_players w /\
  pheap (initializePlayer sid username w) = pheap w /\
  outbox (initializePlayer sid username w) = outbox w.
Proof. intros H. by rewrite (initializePlayer_dup _ _ _ H). Qed.

(** C5: the solve-complete handler searches the room through the delivering
    socket's id; a claimed id that differs from it changes nothing and emits
    nothing, as does a socket that is in no room; with the socket's own id
    the handler is exactly [playerSolveComplete] on the socket's room. *)
Theorem handleSolveComplete_guard sid socketID time w :
  (socketID <> sid -> handleSolveComplete sid socketID time w = w) /\
  (findContaining sid w = None -> handleSolveComplete sid socketID time w = w) /\
  (forall ra r, findContaining sid w = Some (ra, r) -> socketID = sid ->
     handleSolveComplete sid socketID time w = playerSolveComplete ra sid time w).
Proof.
  split; [apply handleSolveComplete_mismatch|].
  split; [apply handleSolveComplete_noroom|].
  intros ra r H ->. by apply handleSolveComplete_own with r.
Qed.

(** C9 (amended): a missing Player in join_random, join_rematch, joined and
    disconnect, and a missing Room in join_rematch, joined and input, make
    the handler emit one 'join:invalid' on the delivering connection's own
    channel and change nothing else.  A repeated initialize, a missing Room
    in completed_solve and a claimed id that is not the sender's leave the
    state as it is and emit nothing. *)
Theorem rejections maxPlayers sid w :
  (forall draws, findPlayer sid w = None ->
     joinRandomRoom maxPlayers sid draws w = Some (reject sid w)) /\
  (forall draws, findPlayer sid w = None \/ findContaining sid w = None ->
     joinRematchRoom maxPlayers sid draws w = Some (reject sid w)) /\
  (forall roomID, findPlayer sid w = None \/ findByID roomID w = None ->
     roomJoined sid roomID w = reject sid w) /\
  (forall senderID key, findContaining senderID w = None ->
     handleKeyboardInput sid senderID key w = reject sid w) /\
  (findPlayer sid w = None -> disconnectPlayer sid w = reject sid w) /\
  (forall username, is_Some (findPlayer sid w) ->
     initializePlayer sid username w = w) /\
  (forall socketID time, findContaining sid w = None \/ socketID <> sid ->
     handleSolveComplete sid socketID time w = w) /\
  reject sid w =
    mkWorld (pheap w) (rheap w) (deps_players w) (deps_rooms w) (channels w)
            (outbox w ++ [(ToChannel sid, MsgJoinInvalid)]).
Proof.
  repeat split.
  - intros draws H. unfold joinRandomRoom. by rewrite H.
  - intros draws [H|H]; unfold joinRematchRoom.
    + by rewrite H.
    + rewrite H. by destruct (findPlayer sid w).
  - intros roomID [H|H]; unfold roomJoined.
    + by rewrite H.
    + rewrite H. by destruct (findPlayer sid w) as [[pa p]|].
  - intros senderID key H. unfold handleKeyboardInput. by rewrite H.
  - intros H. unfold disconnectPlayer. by rewrite H.
  - intros username. apply initializePlayer_dup.
  - intros socketID time [H|H].
    + by apply handleSolveComplete_noroom.
    + by apply handleSolveComplete_mismatch.
Qed.

(** ** Matchmaking: find a joinable room or create one *)

Lemma resolveRoom_total maxPlayers draws w :
  is_Some (findJoinable w) \/ is_Some (freshRoomID w draws) ->
  is_Some (resolveRoom maxPlayers draws w).
Proof.
  unfold resolveRoom. intros [[[a r] H]|[rid H]].
  - rewrite H. eauto.
  - destruct (findJoinable w) as [[a r]|]; [eauto|]. rewrite H. eauto.
Qed.

(** The loop of lines 64-66 ends as soon as one of the draws is an id that no
    directory entry has. *)
Lemma freshRoomID_total w draws d :
  d ∈ draws -> someRoomID d w = false -> is_Some (freshRoomID w draws).
Proof.
  intros Hin Hfree. induction draws as [|e rest IH]; simpl.
  - by apply elem_of_nil in Hin.
  - destruct (someRoomID e w) eqn:He; [|by eexists].
    apply IH. apply elem_of_cons in Hin as [->|Hin]; [congruence|done].
Qed.

(** A room that was found is pushed again: it is in the directory already. *)
Lemma resolveRoom_found maxPlayers draws w a r :
  findJoinable w = Some (a, r) ->
  resolveRoom maxPlayers draws w = Some (a, Room.roomID r, pushRoom a w) /\
  a ∈ deps_rooms w.
Proof.
  intros H. unfold resolveRoom. rewrite H. split; [done|].
  by apply findRef_Some in H as (? & _).
Qed.

(** What a call changes: the directory grows by the chosen room, and the room
    store grows by at most one new, empty room. *)
Lemma resolveRoom_spec maxPlayers draws w a rid w1 :
  resolveRoom maxPlayers draws w = Some (a, rid, w1) ->
  pheap w1 = pheap w /\ deps_players w1 = deps_players w /\
  channels w1 = channels w /\ outbox w1 = outbox w /\
  deps_rooms w1 = deps_rooms w ++ [a] /\
  (exists r, rheap w1 !! a = Some r /\ Room.roomID r = rid) /\
  (rheap w1 = rheap w \/
   a = length (rheap w) /\ rheap w1 = rheap w ++ [Room.new rid maxPlayers]).
Proof.
  unfold resolveRoom.
  destruct (findJoinable w) as [[b r]|] eqn:Hf.
  - intros [= <- <- <-]. apply findRef_Some in Hf as (_ & Hb & _).
    repeat split; simpl; eauto.
  - destruct (freshRoomID w draws) as [d|]; [|discriminate].
    intros [= <- <- <-]. repeat split; simpl.
    + exists (Room.new d maxPlayers). split; [|done].
      rewrite lookup_app_r by lia. by rewrite Nat.sub_diag.
    + by right.
Qed.

Lemma resolveRoom_rooms maxPlayers draws w a rid w1 :
  resolveRoom maxPlayers draws w = Some (a, rid, w1) ->
  (forall b x, rheap w !! b = Some x -> rheap w1 !! b = Some x) /\
  (forall b x, rheap w1 !! b = Some x ->
     rheap w !! b = Some x \/ Room.players x = []).
Proof.
  intros H. apply resolveRoom_spec in H as (_ & _ & _ & _ & _ & _ & [->|[-> ->]]).
  - split; auto.
  - split.
    + intros b x Hb. by apply lookup_app_l_Some.
    + intros b x Hb. apply lookup_app_Some in Hb as [Hb|[_ Hb]]; [by left|].
      right. apply list_lookup_singleton_Some in Hb as [_ <-]. done.
Qed.

(** A search that failed on the old store finds the appended object when it
    satisfies the predicate and its address is searched last. *)
Lemma findRef_snoc_new {A : Type} (h : list A) pred refs y :
  findRef h pred refs = None -> pred y = true ->
  findRef (h ++ [y]) pred (refs ++ [length h]) = Some (length h, y).
Proof.
  intros Hn Hy. induction refs as [|b rest IH]; simpl.
  - rewrite lookup_app_r by lia. rewrite Nat.sub_diag. simpl. by rewrite Hy.
  - simpl in Hn. destruct (decide (b < length h)%nat) as [Hlt|Hge].
    + rewrite lookup_app_l by done.
      destruct (h !! b) as [x|] eqn:Hb.
      * destruct (pred x); [done|]. by apply IH.
      * by apply IH.
    + destruct (decide (b = length h)) as [->|Hne].
      * rewrite lookup_app_r by lia. rewrite Nat.sub_diag. simpl. by rewrite Hy.
      * rewrite (lookup_ge_None_2 (h ++ [y]) b)
          by (rewrite length_app; simpl; lia).
        apply IH. rewrite (lookup_ge_None_2 h b) in Hn by lia. done.
Qed.

(** C6: two calls of the find-or-create step in a row, with nothing in
    between, choose the same room; the second call creates no room, it only
    pushes the chosen one again.  A created room has to have at least one
    free slot to be found again, so the capacity is taken to be positive. *)
Theorem resolveRoom_twice_same_room maxPlayers draws draws' w a rid w1 :
  0 < maxPlayers ->
  resolveRoom maxPlayers draws w = Some (a, rid, w1) ->
  resolveRoom maxPlayers draws' w1 = Some (a, rid, pushRoom a w1).
Proof.
  intros Hcap. unfold resolveRoom at 1.
  destruct (findJoinable w) as [[b r]|] eqn:Hf.
  - intros [= <- <- <-]. unfold resolveRoom, findJoinable. simpl.
    rewrite findRef_app. unfold findJoinable in Hf. by rewrite Hf.
  - destruct (freshRoomID w draws) as [d|]; [|discriminate].
    intros [= <- <- <-]. unfold resolveRoom, findJoinable. simpl.
    rewrite (findRef_snoc_new _ _ _ (Room.new d maxPlayers) Hf); [done|].
    unfold joinable, Room.getMaxPlayerCount. simpl.
    apply andb_true_iff. split; [apply Z.leb_le; lia|done].
Qed.

(** C8: for a connection with a Player, join_random emits the id of the
    chosen room on the caller's own channel and nothing else.  The chosen
    room is the one the find-or-create step returns: the first joinable
    directory entry, or else a new room under the first free drawn id; it
    is the entry pushed to the directory and its id is the one sent.  No
    Player object, no registry entry, no channel membership and no occupant
    list of an existing room changes, and a room it creates is empty.  The
    handler returns as soon as a joinable room exists or a drawn id is not
    taken. *)
Theorem joinRandomRoom_frame maxPlayers sid draws w :
  is_Some (findPlayer sid w) ->
  is_Some (findJoinable w) \/ is_Some (freshRoomID w draws) ->
  exists ra r w0 w1,
    resolveRoom maxPlayers draws w = Some (ra, Room.roomID r, w0) /\
    (findJoinable w = Some (ra, r) \/
     (findJoinable w = None /\ ra = length (rheap w) /\
      freshRoomID w draws = Some (Room.roomID r) /\
      r = Room.new (Room.roomID r) maxPlayers)) /\
    joinRandomRoom maxPlayers sid draws w = Some w1 /\
    w1 = emit (ToChannel sid) (MsgRoomFound (Room.roomID r)) w0 /\
    deps_rooms w1 = deps_rooms w ++ [ra] /\
    rheap w1 !! ra = Some r /\
    outbox w1 = outbox w ++ [(ToChannel sid, MsgRoomFound (Room.roomID r))] /\
    pheap w1 = pheap w /\ deps_players w1 = deps_players w /\
    channels w1 = channels w /\
    (forall a x, rheap w !! a = Some x -> rheap w1 !! a = Some x) /\
    (forall a x, rheap w1 !! a = Some x ->
       rheap w !! a = Some x \/ Room.players x = []).
Proof.
  intros [p Hp] Hterm. unfold joinRandomRoom. rewrite Hp.
  destruct (resolveRoom_total maxPlayers draws w Hterm) as [[[ra rid] w1] Hr].
  rewrite Hr.
  destruct (resolveRoom_spec _ _ _ _ _ _ Hr)
    as (Hph & Hdp & Hch & Hout & Hdir & (r & Hra & <-) & _).
  destruct (resolveRoom_rooms _ _ _ _ _ _ Hr) as [Hold Hnew].
  exists ra, r, w1, (emit (ToChannel sid) (MsgRoomFound (Room.roomID r)) w1).
  split; [done|]. split.
  { unfold resolveRoom in Hr.
    destruct (findJoinable w) as [[b r0]|] eqn:Hf.
    - injection Hr as <- Hid <-. left.
      apply findRef_Some in Hf as (_ & Hb & _). simpl in Hra. congruence.
    - destruct (freshRoomID w draws) as [d|]; [|done].
      injection Hr as <- Hid <-. right. simpl in Hra.
      rewrite lookup_app_r, Nat.sub_diag in Hra by lia.
      injection Hra as <-. by repeat split. }
  simpl. rewrite Hout. repeat split; auto.
Qed.

(** ** Rematch *)

(** A rematch vote only touches the acceptance set of its room. *)
Lemma processRematchRequest_frame ra sid w b w1 :
  processRematchRequest ra sid w = (b, w1) ->
  pheap w1 = pheap w /\ deps_players w1 = deps_players w /\
  deps_rooms w1 = deps_rooms w /\ channels w1 = channels w /\
  outbox w1 = outbox w /\ length (rheap w1) = length (rheap w) /\
  (forall a, Room.players <$> rheap w1 !! a = Room.players <$> rheap w !! a) /\
  (forall a, Room.roomID <$> rheap w1 !! a = Room.roomID <$> rheap w !! a).
Proof.
  unfold processRematchRequest.
  destruct (rheap w !! ra) as [r|] eqn:Hr.
  - intros [= <- <-]. simpl. rewrite length_alter.
    repeat split; intros a; destruct (decide (a = ra)) as [->|Hne].
    + rewrite list_lookup_alter_eq. by destruct (rheap w !! ra).
    + by rewrite list_lookup_alter_ne.
    + rewrite list_lookup_alter_eq. by destruct (rheap w !! ra).
    + by rewrite list_lookup_alter_ne.
  - intros [= <- <-]. done.
Qed.

(** The branches of join_rematch.  A connection without a Player, or in no
    room, is answered by 'join:invalid' on its own channel.  Otherwise the vote
    is passed to [processRematchRequest] of the room that lists the caller.
    When that answers false the handler stops there: no room is created, the
    directory is as before and nothing is emitted.  When it answers true the
    find-or-create step of join_random chooses the next room, and the id of
    that room is sent on the channel named by the old room's id. *)
Theorem joinRematchRoom_cases maxPlayers sid draws w :
  (findPlayer sid w = None \/ findContaining sid w = None ->
     joinRematchRoom maxPlayers sid draws w = Some (reject sid w)) /\
  (forall p ra r w1,
     findPlayer sid w = Some p -> findContaining sid w = Some (ra, r) ->
     processRematchRequest ra sid w = (false, w1) ->
     joinRematchRoom maxPlayers sid draws w = Some w1 /\
     outbox w1 = outbox w /\ deps_rooms w1 = deps_rooms w /\
     length (rheap w1) = length (rheap w)) /\
  (forall p ra r w1,
     findPlayer sid w = Some p -> findContaining sid w = Some (ra, r) ->
     processRematchRequest ra sid w = (true, w1) ->
     is_Some (findJoinable w1) \/ is_Some (freshRoomID w1 draws) ->
     exists na nr rid w2 w3,
       resolveRoom maxPlayers draws w1 = Some (na, rid, w2) /\
       joinRematchRoom maxPlayers sid draws w = Some w3 /\
       rheap w3 !! na = Some nr /\ Room.roomID nr = rid /\
       deps_rooms w3 = deps_rooms w ++ [na] /\
       outbox w3 =
         outbox w ++ [(ToChannel (Room.roomID r), MsgRoomFound rid)]).
Proof.
  split; [|split].
  - intros [H|H]; unfold joinRematchRoom.
    + by rewrite H.
    + rewrite H. by destruct (findPlayer sid w).
  - intros p ra r w1 Hp Hr Hv. unfold joinRematchRoom.
    rewrite Hp, Hr, Hv.
    apply processRematchRequest_frame in Hv as (_ & _ & ? & _ & ? & ? & _).
    done.
  - intros p ra r w1 Hp Hr Hv Hterm. unfold joinRematchRoom.
    rewrite Hp, Hr, Hv.
    destruct (resolveRoom_total maxPlayers draws w1 Hterm) as [[[na rid] w2] Hres].
    rewrite Hres.
    destruct (resolveRoom_spec _ _ _ _ _ _ Hres)
      as (_ & _ & _ & Hout & Hdir & (nr & Hna & Hid) & _).
    apply processRematchRequest_frame in Hv as (_ & _ & Hd1 & _ & Ho1 & _).
    exists na, nr, rid, w2,
      (emit (ToChannel (Room.roomID r)) (MsgRoomFound rid) w2).
    simpl. rewrite Hout, Hdir, Ho1, Hd1. done.
Qed.

(** ** Room membership *)

Lemma hasPlayer_true w sid r :
  hasPlayer w sid r = true <->
  exists a p, a ∈ Room.players r /\ pheap w !! a = Some p /\ Player.id p = sid.
Proof.
  unfold hasPlayer. rewrite someRef_true.
  split; intros (a & p & Ha & Hp & Hid); exists a, p;
    (split; [done|split; [done|]]); by apply hasID_spec.
Qed.

Lemma occupies_hasPlayer w ra r sid :
  rheap w !! ra = Some r -> occupies w ra sid <-> hasPlayer w sid r = true.
Proof.
  intros Hr. rewrite hasPlayer_true. split.
  - intros (r' & a & p & Hr' & H). rewrite Hr in Hr'. injection Hr' as <-.
    by exists a, p.
  - intros (a & p & H). by exists r, a, p.
Qed.

Lemma findContaining_Some sid w ra r :
  findContaining sid w = Some (ra, r) ->
  ra ∈ deps_rooms w /\ rheap w !! ra = Some r /\ occupies w ra sid.
Proof.
  intros H. apply findRef_Some in H as (Hin & Hr & Hp).
  split; [done|]. split; [done|]. by apply (occupies_hasPlayer w ra r).
Qed.

Lemma findContaining_None sid w ra :
  findContaining sid w = None -> ra ∈ deps_rooms w -> ~ occupies w ra sid.
Proof.
  intros H Hin Hocc. pose proof Hocc as (r & _ & _ & Hr & _).
  apply (occupies_hasPlayer w ra r) in Hocc; [|done].
  unfold findContaining in H.
  rewrite (proj1 (findRef_None _ _ _) H ra r Hin Hr) in Hocc. done.
Qed.

Lemma sim_refl w : sim w w.
Proof. by split. Qed.

Lemma sim_trans w1 w2 w3 : sim w1 w2 -> sim w2 w3 -> sim w1 w3.
Proof. intros [] []. split; intros; congruence. Qed.

Lemma fmap_lookup_length {A B : Type} (f : A -> B) (l l' : list A) :
  (forall a, f <$> l' !! a = f <$> l !! a) -> length l' = length l.
Proof.
  intros H.
  destruct (Nat.lt_trichotomy (length l') (length l)) as [Hlt|[Heq|Hgt]];
    [|done|].
  - destruct (lookup_lt_is_Some_2 l (length l') Hlt) as [x Hx].
    specialize (H (length l')). rewrite Hx in H.
    rewrite (lookup_ge_None_2 l') in H by lia. done.
  - destruct (lookup_lt_is_Some_2 l' (length l) Hgt) as [x Hx].
    specialize (H (length l)). rewrite Hx in H.
    rewrite (lookup_ge_None_2 l) in H by lia. done.
Qed.

Lemma sim_player w w' a p :
  sim w w' -> pheap w !! a = Some p ->
  exists p', pheap w' !! a = Some p' /\ Player.id p' = Player.id p.
Proof.
  intros [Hp _ _ _ _] Ha. specialize (Hp a). rewrite Ha in Hp.
  destruct (pheap w' !! a) as [p'|]; [|done].
  exists p'. split; [done|]. simpl in Hp. congruence.
Qed.

Lemma sim_room w w' a r :
  sim w w' -> rheap w !! a = Some r ->
  exists r', rheap w' !! a = Some r' /\ Room.players r' = Room.players r /\
             Room.roomID r' = Room.roomID r.
Proof.
  intros [_ Hr Hi _ _] Ha. specialize (Hr a). specialize (Hi a).
  rewrite Ha in Hr, Hi.
  destruct (rheap w' !! a) as [r'|]; [|done].
  exists r'. simpl in Hr, Hi. split; [done|]. split; congruence.
Qed.

Lemma sim_sym w w' : sim w w' -> sim w' w.
Proof. intros []. by split. Qed.

Lemma sim_occupies w w' ra sid :
  sim w w' -> occupies w' ra sid <-> occupies w ra sid.
Proof.
  assert (forall u v, sim u v -> occupies u ra sid -> occupies v ra sid) as Hone.
  { intros u v Hs (r & a & p & Hra & Ha & Hpa & Hid).
    destruct (sim_room _ _ _ _ Hs Hra) as (r' & Hr' & Hpl & _).
    destruct (sim_player _ _ _ _ Hs Hpa) as (p' & Hp' & Hid').
    exists r', a, p'. repeat split; congruence. }
  intros Hs. split; apply Hone; [by apply sim_sym|done].
Qed.

Lemma sim_WF w w' : sim w w' -> WF w -> WF w'.
Proof.
  intros Hsim [Hdir Hreg Hocc Hone Hids].
  pose proof Hsim as [Hp Hr Hi Hdp Hdr].
  pose proof (fmap_lookup_length _ _ _ Hp) as Hlp.
  pose proof (fmap_lookup_length _ _ _ Hr) as Hlr.
  split.
  - intros ra Hra. rewrite Hdr. apply Hdir. lia.
  - intros a Ha. rewrite Hlp. apply Hreg. by rewrite <- Hdp.
  - intros ra r a Hra Ha. rewrite Hdp.
    destruct (sim_room _ _ _ _ (sim_sym _ _ Hsim) Hra) as (r0 & Hr0 & Hpl & _).
    apply (Hocc ra r0 a Hr0). congruence.
  - intros sid ra rb Ha Hb.
    apply (Hone sid); by apply (sim_occupies w w').
  - intros ra rb r r' Hra Hrb Heq.
    destruct (sim_room _ _ _ _ (sim_sym _ _ Hsim) Hra) as (r0 & Hr0 & _ & Hi0).
    destruct (sim_room _ _ _ _ (sim_sym _ _ Hsim) Hrb) as (r1 & Hr1 & _ & Hi1).
    apply (Hids ra rb r0 r1 Hr0 Hr1). congruence.
Qed.

Lemma sim_emit t m w : sim w (emit t m w).
Proof. by split. Qed.

Lemma sim_setChannels c w : sim w (setChannels c w).
Proof. by split. Qed.

Lemma sim_socket_join sid name w : sim w (socket_join sid name w).
Proof. unfold socket_join. case_bool_decide; by split. Qed.

Lemma sim_socket_leave sid name w : sim w (socket_leave sid name w).
Proof. by split. Qed.

Lemma sim_updPlayer a f w :
  (forall p, Player.id (f p) = Player.id p) -> sim w (updPlayer a f w).
Proof.
  intros Hf. split; try done. simpl. intros b.
  destruct (decide (b = a)) as [->|Hne].
  - rewrite list_lookup_alter_eq. destruct (pheap w !! a); simpl; [|done].
    by rewrite Hf.
  - by rewrite list_lookup_alter_ne.
Qed.

Lemma sim_updRoom a f w :
  (forall r, Room.players (f r) = Room.players r) ->
  (forall r, Room.roomID (f r) = Room.roomID r) ->
  sim w (updRoom a f w).
Proof.
  intros Hf Hg. split; try done; simpl; intros b;
    (destruct (decide (b = a)) as [->|Hne];
     [rewrite list_lookup_alter_eq; destruct (rheap w !! a); simpl; [|done]
     |by rewrite list_lookup_alter_ne]).
  - by rewrite Hf.
  - by rewrite Hg.
Qed.

Lemma sim_updOccupants ra sid f w :
  (forall p, Player.id (f p) = Player.id p) -> sim w (updOccupants ra sid f w).
Proof.
  intros Hf. unfold updOccupants.
  destruct (rheap w !! ra) as [r|]; [|apply sim_refl].
  split; try done. simpl. intros a.
  rewrite list_lookup_imap. destruct (pheap w !! a) as [p|]; simpl; [|done].
  destruct (_ && _); [by rewrite Hf|done].
Qed.

Lemma sim_finishIfDone ra w : sim w (finishIfDone ra w).
Proof.
  unfold finishIfDone. destruct (rheap w !! ra) as [r|]; [|apply sim_refl].
  destruct (_ && _); [|apply sim_refl]. by apply sim_updRoom.
Qed.

Lemma sim_startGame ra w : sim w (startGame ra w).
Proof.
  unfold startGame. destruct (rheap w !! ra) as [r|]; [|apply sim_refl].
  destruct (_ =? _); [|apply sim_refl].
  apply sim_trans with (updRoom ra (Room.setStatus GAME_IN_PROGRESS) w);
    [by apply sim_updRoom | apply sim_emit].
Qed.

Lemma sim_handleInput ra sender key w : sim w (handleInput ra sender key w).
Proof.
  unfold handleInput. destruct (rheap w !! ra); [apply sim_emit|apply sim_refl].
Qed.

Lemma sim_playerSolveComplete ra sid time w :
  sim w (playerSolveComplete ra sid time w).
Proof.
  unfold playerSolveComplete.
  destruct (rheap w !! ra) as [r|]; [|apply sim_refl].
  eapply sim_trans; [|apply sim_finishIfDone].
  eapply sim_trans; [|apply sim_emit].
  by apply sim_updOccupants.
Qed.

Lemma sim_playerDNF ra sid w : sim w (playerDNF ra sid w).
Proof.
  unfold playerDNF. eapply sim_trans; [|apply sim_finishIfDone].
  by apply sim_updOccupants.
Qed.

Lemma sim_processRematchRequest ra sid w b w1 :
  processRematchRequest ra sid w = (b, w1) -> sim w w1.
Proof.
  intros H. apply processRematchRequest_frame in H
    as (Hp & Hdp & Hdr & _ & _ & _ & Hpl & Hid).
  split; try done. by rewrite Hp.
Qed.

Lemma sim_reject sid w : sim w (reject sid w).
Proof. by split. Qed.

(** *** The handlers keep the shape *)

Lemma WF_initWorld : WF initWorld.
Proof.
  split; simpl.
  - intros ra Hra. lia.
  - intros a Ha. by apply elem_of_nil in Ha.
  - intros ra r a Hr. by destruct ra.
  - intros sid ra rb (r & _ & _ & Hr & _). by destruct ra.
  - intros ra rb r r' Hr. by destruct ra.
Qed.

Lemma WF_initializePlayer sid username w :
  WF w -> WF (initializePlayer sid username w).
Proof.
  intros Hwf. unfold initializePlayer.
  destruct (someRef _ _ _); [done|].
  destruct Hwf as [Hdir Hreg Hocc Hone Hids].
  set (u := if String.eqb username "" then _ else _).
  assert (forall ra s,
    occupies (emit (ToSocket sid) (MsgPlayerInitialized sid)
       (pushPlayer (length (pheap w))
          (setPheap (pheap w ++ [Player.new sid u]) w))) ra s ->
    occupies w ra s) as Hback.
  { intros ra s (r & a & p & Hr & Ha & Hp & Hid). simpl in Hr, Hp.
    exists r, a, p. repeat split; try done.
    rewrite lookup_app_l in Hp; [done|].
    apply Hreg. by apply (Hocc ra r). }
  split; simpl.
  - done.
  - intros a Ha. rewrite length_app. simpl.
    apply elem_of_app in Ha as [Ha|Ha].
    + specialize (Hreg a Ha). lia.
    + apply list_elem_of_singleton in Ha. lia.
  - intros ra r a Hr Ha. apply elem_of_app. left. by apply (Hocc ra r).
  - intros s ra rb Ha Hb. apply (Hone s); by apply Hback.
  - done.
Qed.

(** A created room has an id that no directory entry has. *)
Lemma freshRoomID_fresh w draws rid :
  freshRoomID w draws = Some rid -> someRoomID rid w = false.
Proof.
  induction draws as [|d rest IH]; simpl; [done|].
  destruct (someRoomID d w) eqn:Hd; [done|]. by intros [= <-].
Qed.

Lemma resolveRoom_fresh maxPlayers draws w a rid w1 :
  resolveRoom maxPlayers draws w = Some (a, rid, w1) ->
  rheap w1 = rheap w ++ [Room.new rid maxPlayers] ->
  forall b x, b ∈ deps_rooms w -> rheap w !! b = Some x -> Room.roomID x <> rid.
Proof.
  unfold resolveRoom. destruct (findJoinable w) as [[c r]|].
  - intros [= <- <- <-] Heq. simpl in Heq.
    apply (f_equal length) in Heq. rewrite length_app in Heq. simpl in Heq. lia.
  - destruct (freshRoomID w draws) as [d|] eqn:Hd; [|done].
    intros [= <- <- <-] _ b x Hb Hx Heq.
    apply freshRoomID_fresh, someRef_false in Hd.
    pose proof (proj1 (findRef_None _ _ _) Hd b x Hb Hx) as Hne.
    simpl in Hne. apply String.eqb_neq in Hne. done.
Qed.

Lemma WF_resolveRoom maxPlayers draws w a rid w1 :
  resolveRoom maxPlayers draws w = Some (a, rid, w1) -> WF w -> WF w1.
Proof.
  intros Hres [Hdir Hreg Hocc Hone Hids].
  destruct (resolveRoom_spec _ _ _ _ _ _ Hres)
    as (Hp & Hdp & _ & _ & Hdr & _ & Hheap).
  destruct (resolveRoom_rooms _ _ _ _ _ _ Hres) as [_ Hnew].
  assert (forall ra s, occupies w1 ra s -> occupies w ra s) as Hback.
  { intros ra s (r & b & p & Hr & Hb & Hpb & Hid).
    destruct (Hnew ra r Hr) as [Hold|Hempty].
    - exists r, b, p. by rewrite <- Hp.
    - rewrite Hempty in Hb. by apply elem_of_nil in Hb. }
  split.
  - intros ra Hra. rewrite Hdr. apply elem_of_app.
    destruct Hheap as [Heq|[-> Heq]]; rewrite Heq in Hra.
    + left. by apply Hdir.
    + rewrite length_app in Hra. simpl in Hra.
      destruct (decide (ra = length (rheap w))) as [->|Hne].
      * right. by apply list_elem_of_singleton.
      * left. apply Hdir. lia.
  - intros b Hb. rewrite Hp. apply Hreg. by rewrite <- Hdp.
  - intros ra r b Hr Hb. rewrite Hdp.
    destruct (Hnew ra r Hr) as [Hold|Hempty].
    + by apply (Hocc ra r).
    + rewrite Hempty in Hb. by apply elem_of_nil in Hb.
  - intros s ra rb Ha Hb. apply (Hone s); by apply Hback.
  - destruct Hheap as [Heq|[-> Heq]]; rewrite Heq; [done|].
    pose proof (resolveRoom_fresh _ _ _ _ _ _ Hres Heq) as Hfresh.
    assert (forall b x, rheap w !! b = Some x -> Room.roomID x <> rid) as Hne.
    { intros b x Hb. apply (Hfresh b x); [|done].
      apply Hdir. by apply lookup_lt_is_Some_1. }
    intros ra rb r r' Hra Hrb Heqid.
    apply lookup_app_Some in Hra as [Hra|[Hge Hra]];
      apply lookup_app_Some in Hrb as [Hrb|[Hge' Hrb]].
    + by apply (Hids ra rb r r').
    + apply list_lookup_singleton_Some in Hrb as [_ <-]. simpl in Heqid.
      by destruct (Hne ra r Hra).
    + apply list_lookup_singleton_Some in Hra as [_ <-]. simpl in Heqid.
      by destruct (Hne rb r' Hrb).
    + apply list_lookup_singleton_Some in Hra as [? _].
      apply list_lookup_singleton_Some in Hrb as [? _]. lia.
Qed.

(** Who is listed after [removePlayer]. *)
Lemma occupies_removePlayer w ca sid x s :
  occupies (removePlayer ca sid w) x s <->
  occupies w x s /\ ~ (x = ca /\ s = sid).
Proof.
  unfold occupies, removePlayer. simpl.
  destruct (decide (x = ca)) as [->|Hne].
  - rewrite list_lookup_alter_eq. split.
    + intros (r' & a & p & Hr & Ha & Hp & Hid).
      destruct (rheap w !! ca) as [r|] eqn:Hrc; [|done].
      simpl in Hr. injection Hr as <-. simpl in Ha.
      apply list_elem_of_In, filter_In in Ha as [Ha Hkeep].
      apply list_elem_of_In in Ha.
      split; [by exists r, a, p|].
      intros [_ ->]. apply negb_true_iff in Hkeep.
      assert (someRef (pheap w) (hasID (Player.id p)) [a] = true) as Ht.
      { apply someRef_true. exists a, p.
        split; [by left|]. split; [done|]. by apply hasID_spec. }
      congruence.
    + intros [(r & a & p & Hr & Ha & Hp & Hid) Hnot].
      rewrite Hr. simpl. eexists _, a, p. split; [done|]. simpl.
      split; [|done].
      apply list_elem_of_In, filter_In. split; [by apply list_elem_of_In|].
      apply negb_true_iff, not_true_iff_false. intros Ht.
      apply someRef_true in Ht as (b & q & Hb & Hq & Hqid).
      apply list_elem_of_singleton in Hb as ->.
      apply hasID_spec in Hqid. apply Hnot. split; [done|]. congruence.
  - rewrite list_lookup_alter_ne by done. split.
    + intros H. split; [done|]. by intros [? _].
    + by intros [H _].
Qed.

(** Who is listed after [addPlayer]. *)
Lemma occupies_addPlayer w ra pa r p x s :
  rheap w !! ra = Some r -> pheap w !! pa = Some p ->
  occupies (addPlayer ra pa w) x s <->
  occupies w x s \/ (x = ra /\ s = Player.id p).
Proof.
  intros Hra Hpa. unfold occupies, addPlayer. simpl.
  destruct (decide (x = ra)) as [->|Hne].
  - rewrite list_lookup_alter_eq, Hra. simpl. split.
    + intros (r' & a & q & [= <-] & Ha & Hq & Hid). simpl in Ha.
      apply elem_of_app in Ha as [Ha|Ha].
      * left. by exists r, a, q.
      * apply list_elem_of_singleton in Ha as ->. right.
        split; [done|]. congruence.
    + intros [(r' & a & q & [= <-] & Ha & Hq & Hid)|[_ ->]].
      * eexists _, a, q. split; [done|]. simpl.
        split; [|done]. apply elem_of_app. by left.
      * eexists _, pa, p. split; [done|]. simpl.
        split; [|done]. apply elem_of_app. right.
        by apply list_elem_of_singleton.
  - rewrite list_lookup_alter_ne by done. split.
    + by left.
    + intros [H|[? _]]; done.
Qed.

Lemma WF_removePlayer ca sid w : WF w -> WF (removePlayer ca sid w).
Proof.
  intros [Hdir Hreg Hocc Hone Hids].
  assert (forall ra r', rheap (removePlayer ca sid w) !! ra = Some r' ->
            exists r, rheap w !! ra = Some r /\
                      Room.roomID r' = Room.roomID r /\
                      forall a, a ∈ Room.players r' -> a ∈ Room.players r)
    as Hback.
  { intros ra r'. unfold removePlayer. simpl.
    destruct (decide (ra = ca)) as [->|Hne].
    - rewrite list_lookup_alter_eq.
      destruct (rheap w !! ca) as [r|]; [|done]. simpl.
      intros [= <-]. exists r. split; [done|]. split; [done|]. simpl.
      intros a Ha. apply list_elem_of_In, filter_In in Ha as [Ha _].
      by apply list_elem_of_In.
    - rewrite list_lookup_alter_ne by done. intros Hr. by exists r'. }
  split.
  - intros ra. unfold removePlayer. simpl. rewrite length_alter. apply Hdir.
  - done.
  - intros ra r' a Hr Ha. destruct (Hback ra r' Hr) as (r & Hr0 & _ & Hsub).
    apply (Hocc ra r a Hr0). by apply Hsub.
  - intros s ra rb Ha Hb. apply occupies_removePlayer in Ha as [Ha _].
    apply occupies_removePlayer in Hb as [Hb _]. by apply (Hone s).
  - intros ra rb r r' Hra Hrb Heq.
    destruct (Hback ra r Hra) as (r0 & Hr0 & Hi0 & _).
    destruct (Hback rb r' Hrb) as (r1 & Hr1 & Hi1 & _).
    apply (Hids ra rb r0 r1 Hr0 Hr1). congruence.
Qed.

Lemma WF_addPlayer ra pa r p w :
  WF w -> rheap w !! ra = Some r -> pheap w !! pa = Some p ->
  pa ∈ deps_players w -> (forall x, ~ occupies w x (Player.id p)) ->
  WF (addPlayer ra pa w).
Proof.
  intros [Hdir Hreg Hocc Hone Hids] Hra Hpa Hin Hfree.
  assert (forall x r', rheap (addPlayer ra pa w) !! x = Some r' ->
            exists r0, rheap w !! x = Some r0 /\
                       Room.roomID r' = Room.roomID r0 /\
                       forall a, a ∈ Room.players r' ->
                                 a ∈ Room.players r0 \/ a = pa)
    as Hback.
  { intros x r'. unfold addPlayer. simpl.
    destruct (decide (x = ra)) as [->|Hne].
    - rewrite list_lookup_alter_eq, Hra. simpl.
      intros [= <-]. exists r. split; [done|]. split; [done|]. simpl.
      intros a Ha. apply elem_of_app in Ha as [Ha|Ha]; [by left|].
      right. by apply list_elem_of_singleton.
    - rewrite list_lookup_alter_ne by done. intros Hr. exists r'. auto. }
  split.
  - intros x. unfold addPlayer. simpl. rewrite length_alter. apply Hdir.
  - done.
  - intros x r' a Hr Ha. destruct (Hback x r' Hr) as (r0 & Hr0 & _ & Hsub).
    destruct (Hsub a Ha) as [Hold| ->]; [by apply (Hocc x r0)|done].
  - intros s x y Hx Hy.
    apply (occupies_addPlayer w ra pa r p) in Hx; [|done..].
    apply (occupies_addPlayer w ra pa r p) in Hy; [|done..].
    destruct Hx as [Hx|[-> ->]], Hy as [Hy|[-> Hs]]; subst.
    + by apply (Hone s).
    + by destruct (Hfree x).
    + by destruct (Hfree y).
    + done.
  - intros x y r1 r2 Hx Hy Heq.
    destruct (Hback x r1 Hx) as (r0 & Hr0 & Hi0 & _).
    destruct (Hback y r2 Hy) as (r0' & Hr0' & Hi0' & _).
    apply (Hids x y r0 r0' Hr0 Hr0'). congruence.
Qed.

Lemma findPlayer_Some sid w pa p :
  findPlayer sid w = Some (pa, p) ->
  pa ∈ deps_players w /\ pheap w !! pa = Some p /\ Player.id p = sid.
Proof.
  intros H. apply findRef_Some in H as (? & ? & Hid).
  by apply hasID_spec in Hid.
Qed.

(** In a state of the right shape the search of the directory finds the room
    that lists an id, whenever there is one. *)
Lemma findContaining_complete sid w ra :
  WF w -> occupies w ra sid ->
  exists r, findContaining sid w = Some (ra, r).
Proof.
  intros Hwf Hocc. destruct (findContaining sid w) as [[ca c]|] eqn:Hf.
  - apply findContaining_Some in Hf as (_ & Hc & Hocc').
    rewrite (wf_one w Hwf sid ra ca Hocc Hocc'). by exists c.
  - destruct (findContaining_None sid w ra Hf); [|done].
    apply (wf_dir w Hwf). destruct Hocc as (r & _ & _ & Hr & _).
    by apply lookup_lt_is_Some_1.
Qed.

(** After lines 143-151 no room lists the socket's id. *)
Lemma leaveCurrent_spec sid pa p w :
  WF w -> Player.id p = sid ->
  WF (leaveCurrent sid pa p w) /\
  (forall x, ~ occupies (leaveCurrent sid pa p w) x sid) /\
  (forall x s, s <> sid ->
     occupies (leaveCurrent sid pa p w) x s <-> occupies w x s).
Proof.
  intros Hwf Hid. unfold leaveCurrent.
  destruct (findContaining sid w) as [[ca c]|] eqn:Hf.
  - set (w0 := removePlayer ca (Player.id p) w).
    assert (sim w0 (updPlayer pa Player.reset
                      (socket_leave sid (Room.roomID c) w0))) as Hs.
    { eapply sim_trans; [apply sim_socket_leave|]. by apply sim_updPlayer. }
    apply findContaining_Some in Hf as (_ & _ & Hc).
    split; [|split].
    + apply (sim_WF _ _ Hs). by apply WF_removePlayer.
    + intros x Hx. apply (sim_occupies _ _ _ _ Hs) in Hx.
      apply occupies_removePlayer in Hx as [Hx Hnot].
      apply Hnot. split; [|done]. by apply (wf_one w Hwf sid).
    + intros x s Hne. rewrite (sim_occupies _ _ _ _ Hs).
      unfold w0. rewrite occupies_removePlayer. split; [by intros [? _]|].
      intros H. split; [done|]. intros [_ ->]. by apply Hne.
  - split; [done|]. split; [|done].
    intros x Hx. destruct (findContaining_complete sid w x Hwf Hx). congruence.
Qed.

(** Lines 143-151 keep the references, the number of rooms, and the id of the
    socket's player. *)
Lemma leaveCurrent_frame sid pa p w :
  pheap w !! pa = Some p ->
  deps_players (leaveCurrent sid pa p w) = deps_players w /\
  deps_rooms (leaveCurrent sid pa p w) = deps_rooms w /\
  length (rheap (leaveCurrent sid pa p w)) = length (rheap w) /\
  exists p1, pheap (leaveCurrent sid pa p w) !! pa = Some p1 /\
             Player.id p1 = Player.id p.
Proof.
  intros Hpa. unfold leaveCurrent.
  destruct (findContaining sid w) as [[ca c]|].
  - simpl. rewrite length_alter, list_lookup_alter_eq, Hpa. simpl.
    repeat split. by exists (Player.reset p).
  - repeat split. by exists p.
Qed.



(** Who is listed after the join confirmation: the socket's id by the target
    room only, every other id as before. *)
Lemma roomJoined_occupies sid roomID w pa p ra r x s :
  WF w -> findPlayer sid w = Some (pa, p) -> findByID roomID w = Some (ra, r) ->
  occupies (roomJoined sid roomID w) x s <->
  (s = sid /\ x = ra) \/ (s <> sid /\ occupies w x s).
Proof.
  intros Hwf Hp Hr. unfold roomJoined. rewrite Hp, Hr.
  apply findPlayer_Some in Hp as (Hin & Hpa & Hid).
  apply findRef_Some in Hr as (_ & Hra & _).
  destruct (leaveCurrent_spec sid pa p w Hwf Hid) as (_ & Hfree & Hother).
  destruct (leaveCurrent_frame sid pa p w Hpa)
    as (_ & _ & Hlen1 & p1 & Hp1 & Hid1).
  unfold enterRoom.
  set (w1 := leaveCurrent sid pa p w) in *.
  set (w2 := socket_join sid (Room.roomID r) w1).
  pose proof (sim_socket_join sid (Room.roomID r) w1) as Hs2. fold w2 in Hs2.
  destruct (sim_player _ _ _ _ Hs2 Hp1) as (p2 & Hp2 & Hid2).
  assert (is_Some (rheap w2 !! ra)) as [r2 Hr2].
  { apply lookup_lt_is_Some_2.
    rewrite (fmap_lookup_length Room.players _ _ (sim_players _ _ Hs2)).
    rewrite Hlen1. by apply lookup_lt_is_Some_1. }
  rewrite (sim_occupies _ _ _ _ (sim_startGame ra (addPlayer ra pa w2))).
  rewrite (occupies_addPlayer w2 ra pa r2 p2 x s Hr2 Hp2).
  rewrite (sim_occupies _ _ _ _ Hs2).
  assert (Player.id p2 = sid) as -> by congruence.
  destruct (decide (s = sid)) as [->|Hne].
  - split.
    + intros [H|[-> _]]; [by destruct (Hfree x)|by left].
    + intros [[_ ->]|[? _]]; [by right|done].
  - rewrite (Hother x s Hne). split.
    + intros [H|[_ ->]]; [by right|done].
    + intros [[-> _]|[_ H]]; [done|by left].
Qed.

Lemma WF_roomJoined sid roomID w : WF w -> WF (roomJoined sid roomID w).
Proof.
  intros Hwf. unfold roomJoined.
  destruct (findPlayer sid w) as [[pa p]|] eqn:Hp;
    [|by apply (sim_WF w); [apply sim_reject|]].
  destruct (findByID roomID w) as [[ra r]|] eqn:Hr;
    [|by apply (sim_WF w); [apply sim_reject|]].
  apply findPlayer_Some in Hp as (Hin & Hpa & Hid).
  apply findRef_Some in Hr as (_ & Hra & _).
  destruct (leaveCurrent_spec sid pa p w Hwf Hid) as (Hwf1 & Hfree & _).
  destruct (leaveCurrent_frame sid pa p w Hpa)
    as (Hdp1 & _ & Hlen1 & p1 & Hp1 & Hid1).
  unfold enterRoom.
  set (w1 := leaveCurrent sid pa p w) in *.
  set (w2 := socket_join sid (Room.roomID r) w1).
  pose proof (sim_socket_join sid (Room.roomID r) w1) as Hs2. fold w2 in Hs2.
  destruct (sim_player _ _ _ _ Hs2 Hp1) as (p2 & Hp2 & Hid2).
  assert (is_Some (rheap w2 !! ra)) as [r2 Hr2].
  { apply lookup_lt_is_Some_2.
    rewrite (fmap_lookup_length Room.players _ _ (sim_players _ _ Hs2)).
    rewrite Hlen1. by apply lookup_lt_is_Some_1. }
  apply (sim_WF (addPlayer ra pa w2)); [apply sim_startGame|].
  apply (WF_addPlayer ra pa r2 p2); try done.
  - by apply (sim_WF w1).
  - rewrite (sim_deps_players _ _ Hs2), Hdp1. done.
  - intros x Hx. apply (sim_occupies _ _ _ _ Hs2) in Hx.
    apply (Hfree x). congruence.
Qed.

Lemma sim_handleKeyboardInput sid senderID key w :
  sim w (handleKeyboardInput sid senderID key w).
Proof.
  unfold handleKeyboardInput.
  destruct (findContaining senderID w) as [[ra r]|];
    [apply sim_handleInput|apply sim_reject].
Qed.

Lemma sim_handleSolveComplete sid socketID time w :
  sim w (handleSolveComplete sid socketID time w).
Proof.
  unfold handleSolveComplete.
  destruct (findContaining sid w) as [[ra r]|]; [|apply sim_refl].
  destruct (String.eqb sid socketID);
    [apply sim_playerSolveComplete|apply sim_refl].
Qed.

Lemma sim_disconnectPlayer sid w : sim w (disconnectPlayer sid w).
Proof.
  unfold disconnectPlayer.
  destruct (findPlayer sid w) as [[pa p]|]; [|apply sim_reject].
  destruct (findContaining sid w) as [[ra r]|];
    [apply sim_playerDNF|apply sim_refl].
Qed.

Lemma WF_joinRandomRoom maxPlayers sid draws w w1 :
  joinRandomRoom maxPlayers sid draws w = Some w1 -> WF w -> WF w1.
Proof.
  unfold joinRandomRoom. intros H Hwf.
  destruct (findPlayer sid w) as [[pa p]|].
  - destruct (resolveRoom maxPlayers draws w) as [[[a rid] w2]|] eqn:Hres;
      [|done].
    injection H as <-. apply (sim_WF w2); [apply sim_emit|].
    by apply (WF_resolveRoom _ _ _ _ _ _ Hres).
  - injection H as <-. by apply (sim_WF w); [apply sim_reject|].
Qed.

Lemma WF_joinRematchRoom maxPlayers sid draws w w1 :
  joinRematchRoom maxPlayers sid draws w = Some w1 -> WF w -> WF w1.
Proof.
  unfold joinRematchRoom. intros H Hwf.
  destruct (findPlayer sid w) as [[pa p]|];
    [|injection H as <-; by apply (sim_WF w); [apply sim_reject|]].
  destruct (findContaining sid w) as [[ra r]|];
    [|injection H as <-; by apply (sim_WF w); [apply sim_reject|]].
  destruct (processRematchRequest ra sid w) as [b w2] eqn:Hv.
  pose proof (sim_WF _ _ (sim_processRematchRequest _ _ _ _ _ Hv) Hwf) as Hwf2.
  destruct b; [|by injection H as <-].
  destruct (resolveRoom maxPlayers draws w2) as [[[a rid] w3]|] eqn:Hres;
    [|done].
  injection H as <-. apply (sim_WF w3); [apply sim_emit|].
  by apply (WF_resolveRoom _ _ _ _ _ _ Hres).
Qed.

Lemma WF_handle maxPlayers sid ev w w1 :
  handle maxPlayers sid ev w = Some w1 -> WF w -> WF w1.
Proof.
  destruct ev; simpl; intros H Hwf.
  - injection H as <-. by apply WF_initializePlayer.
  - by apply (WF_joinRandomRoom _ _ _ _ _ H).
  - by apply (WF_joinRematchRoom _ _ _ _ _ H).
  - injection H as <-. by apply WF_roomJoined.
  - injection H as <-. by apply (sim_WF w); [apply sim_handleKeyboardInput|].
  - injection H as <-. by apply (sim_WF w); [apply sim_handleSolveComplete|].
  - injection H as <-. by apply (sim_WF w); [apply sim_disconnectPlayer|].
Qed.

Lemma reachable_WF maxPlayers w : reachable maxPlayers w -> WF w.
Proof.
  induction 1 as [|w sid ev w1 _ IH Hstep]; [apply WF_initWorld|].
  by apply (WF_handle _ _ _ _ _ Hstep).
Qed.

Lemma run_reachable maxPlayers evs w w1 :
  reachable maxPlayers w -> run maxPlayers evs w = Some w1 ->
  reachable maxPlayers w1.
Proof.
  revert w. induction evs as [|[sid ev] rest IH]; simpl; intros w Hw.
  - by intros [= <-].
  - destruct (handle maxPlayers sid ev w) as [w2|] eqn:Hstep; [|done].
    apply IH. by apply (reach_step _ w sid ev).
Qed.

(** ** One room per player *)



(** ** Disconnect *)

Lemma pheap_finishIfDone ra w : pheap (finishIfDone ra w) = pheap w.
Proof.
  unfold finishIfDone. destruct (rheap w !! ra) as [r|]; [|done].
  by destruct (_ && _).
Qed.

Lemma findPlayer_complete sid w a p :
  a ∈ deps_players w -> pheap w !! a = Some p -> Player.id p = sid ->
  is_Some (findPlayer sid w).
Proof.
  intros Ha Hp Hid. apply findPlayer_some, someRef_true.
  exists a, p. split; [done|]. split; [done|]. by apply hasID_spec.
Qed.

Lemma sim_findPlayer sid w w' :
  sim w w' -> is_Some (findPlayer sid w) -> is_Some (findPlayer sid w').
Proof.
  intros Hs [[a p] H]. apply findPlayer_Some in H as (Ha & Hp & Hid).
  destruct (sim_player _ _ _ _ Hs Hp) as (p' & Hp' & Hid').
  apply (findPlayer_complete sid w' a p'); [|done|congruence].
  by rewrite (sim_deps_players _ _ Hs).
Qed.

(** Every Player object with id [sid] that room [ra] lists is DNF after
    [playerDNF]. *)
Lemma playerDNF_marks ra sid w r a p :
  rheap w !! ra = Some r -> a ∈ Room.players r ->
  pheap (playerDNF ra sid w) !! a = Some p -> Player.id p = sid ->
  Player.isDNF p = true.
Proof.
  intros Hr Ha Hp Hid. unfold playerDNF in Hp.
  rewrite pheap_finishIfDone in Hp. unfold updOccupants in Hp.
  rewrite Hr in Hp. simpl in Hp. rewrite list_lookup_imap in Hp.
  destruct (pheap w !! a) as [p0|]; [|done]. simpl in Hp.
  rewrite bool_decide_eq_true_2 in Hp by done. simpl in Hp.
  destruct (hasID sid p0) eqn:Hh.
  - by injection Hp as <-.
  - injection Hp as <-. apply hasID_spec in Hid. congruence.
Qed.

(** C2 (amended): a disconnect event leaves the registry as it is, so a
    connection that had a Player still has it afterwards; if a room lists
    the connection's id, the room's occupant list is unchanged, it still
    lists the id, and every Player object with that id it lists has
    isDNF = true. *)
Theorem disconnectPlayer_effect maxPlayers w sid :
  reachable maxPlayers w ->
  deps_players (disconnectPlayer sid w) = deps_players w /\
  (is_Some (findPlayer sid w) ->
   is_Some (findPlayer sid (disconnectPlayer sid w))) /\
  (forall ra r, rheap w !! ra = Some r -> hasPlayer w sid r = true ->
     occupies (disconnectPlayer sid w) ra sid /\
     exists r', rheap (disconnectPlayer sid w) !! ra = Some r' /\
       Room.players r' = Room.players r /\
       forall a p, a ∈ Room.players r' ->
         pheap (disconnectPlayer sid w) !! a = Some p ->
         Player.id p = sid -> Player.isDNF p = true).
Proof.
  intros Hreach. pose proof (reachable_WF _ _ Hreach) as Hwf.
  pose proof (sim_disconnectPlayer sid w) as Hs.
  split; [apply Hs|]. split; [by apply sim_findPlayer|].
  intros ra r Hr Hhas.
  assert (occupies w ra sid) as Hocc
    by (by apply (occupies_hasPlayer w ra r)).
  split; [by apply (sim_occupies _ _ _ _ Hs)|].
  destruct (sim_room _ _ _ _ Hs Hr) as (r' & Hr' & Hpl & _).
  exists r'. split; [done|]. split; [done|].
  intros a p Ha Hp Hid. rewrite Hpl in Ha.
  destruct (findContaining_complete sid w ra Hwf Hocc) as [c Hc].
  pose proof (findContaining_Some _ _ _ _ Hc) as (_ & Hrc & _).
  assert (c = r) as -> by congruence.
  destruct Hocc as (r0 & b & q & Hr0 & Hb & Hq & Hqid).
  assert (is_Some (findPlayer sid w)) as [[pa p0] Hf].
  { apply (findPlayer_complete sid w b q); [|done..].
    apply (wf_occ w Hwf ra r0 b Hr0 Hb). }
  pose proof (findPlayer_Some _ _ _ _ Hf) as (_ & _ & Hid0).
  unfold disconnectPlayer in Hp. rewrite Hf, Hc, Hid0 in Hp.
  by apply (playerDNF_marks ra sid w r a p).
Qed.

(** ** Joining the room one is already in *)

Lemma channels_enterRoom sid pa ra r w :
  (sid, Room.roomID r) ∈ channels (enterRoom sid pa ra r w).
Proof.
  unfold enterRoom, startGame, addPlayer.
  assert ((sid, Room.roomID r) ∈ channels (socket_join sid (Room.roomID r) w))
    as Hin.
  { unfold socket_join. case_bool_decide; [done|]. simpl.
    apply elem_of_app. right. by apply list_elem_of_singleton. }
  simpl. destruct (alter _ ra _ !! ra) as [r'|]; [|done].
  by destruct (_ =? _).
Qed.

Lemma findByID_complete rid w ra r :
  WF w -> ra ∈ deps_rooms w -> rheap w !! ra = Some r -> Room.roomID r = rid ->
  findByID rid w = Some (ra, r).
Proof.
  intros Hwf Hin Hr Hid. destruct (findByID rid w) as [[rb r']|] eqn:Hf.
  - apply findRef_Some in Hf as (_ & Hrb & Heq).
    apply String.eqb_eq in Heq.
    assert (rb = ra) as -> by (apply (wf_ids w Hwf rb ra r' r); congruence).
    congruence.
  - unfold findByID in Hf.
    pose proof (proj1 (findRef_None _ _ _) Hf ra r Hin Hr) as Hne.
    simpl in Hne. apply String.eqb_neq in Hne. done.
Qed.


(** ** The directory after matchmaking *)

(** C1: the process reaches a state whose directory holds the same room
    twice.  One connection registers and asks for a random room two times;
    the first request creates room "00000" and pushes it, the second finds
    it and pushes it again (line 71 is outside the [if] of line 61). *)
Theorem join_random_pushes_found_room_again :
  exists w,
    run 2 [("a", EvInitialize "ann"); ("a", EvJoinRandom ["00000"]);
           ("a", EvJoinRandom [])] initWorld = Some w /\
    reachable 2 w /\
    deps_rooms w = [0%nat; 0%nat] /\
    directoryIDs w = ["00000"; "00000"] /\
    ~ NoDup (directoryIDs w).
Proof.
  eexists. split; [vm_compute; reflexivity|].
  split.
  { apply (run_reachable 2
             [("a", EvInitialize "ann"); ("a", EvJoinRandom ["00000"]);
              ("a", EvJoinRandom [])] initWorld); [apply reach_init|].
    vm_compute. reflexivity. }
  split; [reflexivity|]. split; [reflexivity|].
  vm_compute. intros H. apply NoDup_cons in H as [Hnot _].
  apply Hnot. left.
Qed.

(** ** Rematch of a room that has not started *)

(** C7: a rematch that reaches consensus does not always lead to a new room.
    Connection "a" is alone in room "00000", which has not started and has a
    free slot.  Its join_rematch reaches consensus at once, the find-or-create
    step of lines 101-112 finds the old room itself, and the handler pushes
    that room again and sends its id on its own channel: no room is created
    and the players are sent to the room they are in. *)
Theorem join_rematch_resolves_old_room :
  reachable 2 lobbyWorld /\
  findContaining "a" lobbyWorld =
    Some (0%nat, Room.mk "00000" [0%nat] GAME_NOT_STARTED 2 []) /\
  processRematchRequest 0 "a" lobbyWorld =
    (true, updRoom 0 (Room.setRematch ["a"]) lobbyWorld) /\
  exists w,
    joinRematchRoom 2 "a" ["abcde"] lobbyWorld = Some w /\
    length (rheap w) = length (rheap lobbyWorld) /\
    deps_rooms w = deps_rooms lobbyWorld ++ [0%nat] /\
    directoryIDs w = ["00000"; "00000"] /\
    outbox w =
      outbox lobbyWorld ++ [(ToChannel "00000", MsgRoomFound "00000")].
Proof.
  split.
  { apply (run_reachable 2
             [("a", EvInitialize "ann"); ("a", EvJoinRandom ["00000"]);
              ("a", EvJoined "00000")] initWorld); [apply reach_init|].
    vm_compute. reflexivity. }
  split; [vm_compute; reflexivity|].
  split; [vm_compute; reflexivity|].
  eexists. split; [vm_compute; reflexivity|].
  repeat split; vm_compute; reflexivity.
Qed.

(** ** Instances *)

Lemma sampleWorld_reachable : reachable 2 sampleWorld.
Proof.
  apply (run_reachable 2 sampleSession initWorld); [apply reach_init|].
  vm_compute. reflexivity.
Qed.

Lemma loneWorld_reachable : reachable 2 loneWorld.
Proof.
  apply (reach_step 2 initWorld "a" (EvInitialize "ann")); [apply reach_init|].
  vm_compute. reflexivity.
Qed.

(** C2, as stated, fails: after registering and disconnecting, connection "a"
    still has its Player in the registry. *)
Lemma disconnect_keeps_registry_entry :
  exists w,
    run 2 [("a", EvInitialize "ann"); ("a", EvDisconnect)] initWorld = Some w /\
    deps_players w = [0%nat] /\
    findPlayer "a" w = Some (0%nat, Player.new "a" "ann").
Proof. eexists. repeat split; vm_compute; reflexivity. Qed.

Lemma disconnectPlayer_effect_witness :
  is_Some (findPlayer "b" (disconnectPlayer "b" sampleWorld)) /\
  occupies (disconnectPlayer "b" sampleWorld) 0 "b".
Proof.
  pose proof (disconnectPlayer_effect 2 sampleWorld "b" sampleWorld_reachable)
    as (_ & Hreg & Hroom).
  split.
  - apply Hreg. vm_compute. eexists. reflexivity.
  - eapply Hroom; vm_compute; reflexivity.
Defined.

(** C3, as stated, fails: the second initialize of connection "a" emits
    nothing, so no 'join:invalid' reaches the caller. *)
Lemma initialize_twice_emits_nothing :
  is_Some (findPlayer "a" loneWorld) /\
  handle 2 "a" (EvInitialize "ann") loneWorld = Some loneWorld /\
  forall t, (t, MsgJoinInvalid) ∉ outbox loneWorld.
Proof.
  split; [vm_compute; eexists; reflexivity|].
  split; [vm_compute; reflexivity|].
  intros t Hin. vm_compute in Hin.
  apply list_elem_of_singleton in Hin. discriminate.
Qed.

Lemma initializePlayer_registered_silent_witness :
  outbox (initializePlayer "a" "bob" loneWorld) = outbox loneWorld.
Proof.
  apply (initializePlayer_registered_silent "a" "bob" loneWorld).
  vm_compute. eexists. reflexivity.
Defined.




Lemma handleSolveComplete_guard_witness :
  handleSolveComplete "a" "b" 5 sampleWorld = sampleWorld.
Proof.
  apply (proj1 (handleSolveComplete_guard "a" "b" 5 sampleWorld)).
  discriminate.
Defined.

Lemma resolveRoom_twice_same_room_witness :
  exists w1,
    resolveRoom 2 ["00000"] loneWorld = Some (0%nat, "00000", w1) /\
    resolveRoom 2 [] w1 = Some (0%nat, "00000", pushRoom 0 w1).
Proof.
  eexists. split; [vm_compute; reflexivity|].
  apply (resolveRoom_twice_same_room 2 ["00000"] [] loneWorld); [lia|].
  vm_compute. reflexivity.
Defined.

Lemma joinRematchRoom_cases_witness :
  exists w,
    joinRematchRoom 2 "b" ["00000"; "abcde"] finishedWorld = Some w /\
    outbox w =
      outbox finishedWorld ++ [(ToChannel "00000", MsgRoomFound "abcde")].
Proof.
  destruct (joinRematchRoom_cases 2 "b" ["00000"; "abcde"] finishedWorld)
    as (_ & _ & Htrue).
  edestruct Htrue as (na & nr & rid & w2 & w3 & Hres & Hjoin & _ & _ & _ & Hout);
    [vm_compute; reflexivity..| |].
  - right. vm_compute. eexists. reflexivity.
  - exists w3. split; [done|].
    vm_compute in Hres. injection Hres as <- <- <-. exact Hout.
Defined.

Lemma joinRandomRoom_frame_witness :
  exists w1,
    joinRandomRoom 2 "a" ["00000"; "abcde"] sampleWorld = Some w1 /\
    outbox w1 =
      outbox sampleWorld ++ [(ToChannel "a", MsgRoomFound "abcde")] /\
    deps_rooms w1 = deps_rooms sampleWorld ++ [1%nat] /\
    pheap w1 = pheap sampleWorld.
Proof.
  destruct (joinRandomRoom_frame 2 "a" ["00000"; "abcde"] sampleWorld)
    as (ra & r & w0 & w1 & Hres & _ & Hjoin & _ & Hdir & _ & Hout & Hp & _).
  - vm_compute. eexists. reflexivity.
  - right. vm_compute. eexists. reflexivity.
  - remember (Room.roomID r) as rid eqn:Hrid.
    vm_compute in Hres. injection Hres as <- <- _.
    exists w1. by repeat split.
Defined.

(** C9, as stated, fails: a completed_solve that claims another id, and a
    repeated initialize, emit no rejection at all. *)
Lemma mismatch_and_duplicate_emit_nothing :
  handle 2 "a" (EvCompletedSolve "b" 5) sampleWorld = Some sampleWorld /\
  handle 2 "a" (EvInitialize "ann") sampleWorld = Some sampleWorld.
Proof. split; vm_compute; reflexivity. Qed.

Lemma rejections_witness :
  joinRandomRoom 2 "z" [] sampleWorld = Some (reject "z" sampleWorld) /\
  roomJoined "a" "fffff" sampleWorld = reject "a" sampleWorld /\
  handleSolveComplete "a" "b" 5 sampleWorld = sampleWorld.
Proof.
  pose proof (rejections 2 "z" sampleWorld) as (Hrandom & _).
  pose proof (rejections 2 "a" sampleWorld)
    as (_ & _ & Hjoined & _ & _ & _ & Hsolve & _).
  split; [apply Hrandom; vm_compute; reflexivity|].
  split; [apply Hjoined; right; vm_compute; reflexivity|].
  apply Hsolve. right. discriminate.
Defined.


(** * Further properties of the handlers *)

(** ** The id loop and the choice of a room *)

Lemma freshRoomID_None_all w draws :
  freshRoomID w draws = None -> forall d, d ∈ draws -> someRoomID d w = true.
Proof.
  induction draws as [|e rest IH]; simpl.
  - intros _ d Hd. by apply elem_of_nil in Hd.
  - destruct (someRoomID e w) eqn:He; [|done].
    intros H d Hd. apply elem_of_cons in Hd as [->|Hd]; auto.
Qed.

Lemma freshRoomID_total_None w draws :
  (forall d, d ∈ draws -> someRoomID d w = true) -> freshRoomID w draws = None.
Proof.
  induction draws as [|e rest IH]; simpl; [done|].
  intros H. rewrite (H e) by left. apply IH. intros d Hd. apply H. by right.
Qed.

(** X1: the loop of lines 62-66 yields the first drawn id that no directory
    entry has, every earlier draw being taken; it does not end within the
    draws exactly when all of them are taken. *)
Theorem freshRoomID_first_free w draws :
  (forall rid, freshRoomID w draws = Some rid <->
     exists pre post, draws = pre ++ rid :: post /\
       (forall d, d ∈ pre -> someRoomID d w = true) /\
       someRoomID rid w = false) /\
  (freshRoomID w draws = None <->
     forall d, d ∈ draws -> someRoomID d w = true).
Proof.
  induction draws as [|e rest [IHs IHn]]; simpl.
  - split.
    + intros rid. split; [done|]. intros (pre & post & H & _).
      by destruct pre.
    + split; [|done]. intros _ d Hd. by apply elem_of_nil in Hd.
  - destruct (someRoomID e w) eqn:He.
    + split.
      * intros rid. rewrite IHs. split.
        -- intros (pre & post & -> & Hpre & Hfree).
           exists (e :: pre), post. split; [done|]. split; [|done].
           intros d Hd. apply elem_of_cons in Hd as [->|Hd]; auto.
        -- intros (pre & post & Heq & Hpre & Hfree).
           destruct pre as [|e' pre]; simpl in Heq.
           ++ injection Heq as <- <-. congruence.
           ++ injection Heq as <- ->. exists pre, post.
              split; [done|]. split; [|done].
              intros d Hd. apply Hpre. by right.
      * rewrite IHn. split.
        -- intros H d Hd. apply elem_of_cons in Hd as [->|Hd]; auto.
        -- intros H d Hd. apply H. by right.
    + split.
      * intros rid. split.
        -- intros [= <-]. exists [], rest. split; [done|].
           split; [|done]. intros d Hd. by apply elem_of_nil in Hd.
        -- intros (pre & post & Heq & Hpre & Hfree).
           destruct pre as [|e' pre]; simpl in Heq.
           ++ by injection Heq as <- <-.
           ++ injection Heq as <- ->.
              rewrite (Hpre e) in He by left. done.
      * split; [done|]. intros H. rewrite (H e) in He by left. done.
Qed.

(** X2: for a connection with a Player, join_random fails to return exactly
    when no directory entry is joinable and every drawn id is taken; a
    connection without a Player is always answered. *)
Theorem joinRandomRoom_stuck_iff maxPlayers sid draws w :
  joinRandomRoom maxPlayers sid draws w = None <->
  is_Some (findPlayer sid w) /\ findJoinable w = None /\
  forall d, d ∈ draws -> someRoomID d w = true.
Proof.
  unfold joinRandomRoom, resolveRoom.
  destruct (findPlayer sid w) as [[pa p]|].
  - destruct (findJoinable w) as [[a r]|].
    + split; [done|]. by intros (_ & ? & _).
    + destruct (freshRoomID w draws) as [rid|] eqn:Hf.
      * split; [done|]. intros (_ & _ & Hall).
        apply (freshRoomID_total_None w draws) in Hall. congruence.
      * split; [|done]. intros _. split; [by eexists|]. split; [done|].
        by apply (freshRoomID_None_all w draws).
  - split; [done|]. by intros [[? ?] _].
Qed.

(** A successful search stops at the first reference that satisfies the
    predicate. *)
Lemma findRef_first {A : Type} (h : list A) pred refs a x :
  findRef h pred refs = Some (a, x) ->
  exists pre post, refs = pre ++ a :: post /\
    forall b y, b ∈ pre -> h !! b = Some y -> pred y = false.
Proof.
  induction refs as [|c rest IH]; simpl; [done|].
  destruct (h !! c) as [z|] eqn:Hc.
  - destruct (pred z) eqn:Hz.
    + intros [= <- <-]. exists [], rest. split; [done|].
      intros b y Hb. by apply elem_of_nil in Hb.
    + intros H. destruct (IH H) as (pre & post & -> & Hpre).
      exists (c :: pre), post. split; [done|].
      intros b y Hb Hy. apply elem_of_cons in Hb as [->|Hb]; [congruence|].
      by apply (Hpre b y).
  - intros H. destruct (IH H) as (pre & post & -> & Hpre).
    exists (c :: pre), post. split; [done|].
    intros b y Hb Hy. apply elem_of_cons in Hb as [->|Hb]; [congruence|].
    by apply (Hpre b y).
Qed.

(** X3: matchmaking is first-fit.  The chosen room is either the first
    directory entry with a free slot that has not started (no entry before
    it is joinable), which is pushed again and nothing is created; or no
    entry at all is joinable, and the room is a new one under an id that no
    directory entry has. *)
Theorem resolveRoom_first_fit maxPlayers draws w a rid w1 :
  resolveRoom maxPlayers draws w = Some (a, rid, w1) ->
  (exists r pre post,
     rheap w !! a = Some r /\ joinable r = true /\ Room.roomID r = rid /\
     deps_rooms w = pre ++ a :: post /\
     (forall b x, b ∈ pre -> rheap w !! b = Some x -> joinable x = false) /\
     w1 = pushRoom a w) \/
  ((forall b x, b ∈ deps_rooms w -> rheap w !! b = Some x ->
      joinable x = false) /\
   someRoomID rid w = false /\
   a = length (rheap w) /\
   w1 = pushRoom a (setRheap (rheap w ++ [Room.new rid maxPlayers]) w)).
Proof.
  unfold resolveRoom. destruct (findJoinable w) as [[b r]|] eqn:Hf.
  - intros [= <- <- <-]. left.
    destruct (findRef_first _ _ _ _ _ Hf) as (pre & post & Hdir & Hpre).
    apply findRef_Some in Hf as (_ & Hr & Hj).
    by exists r, pre, post.
  - destruct (freshRoomID w draws) as [d|] eqn:Hd; [|done].
    intros [= <- <- <-]. right.
    split; [by apply findRef_None|].
    split; [by apply (freshRoomID_fresh w draws)|done].
Qed.

(** One more join_random in a state that has a joinable room. *)
Lemma joinRandomRoom_found maxPlayers sid draws w a r :
  is_Some (findPlayer sid w) -> findJoinable w = Some (a, r) ->
  exists w1,
    joinRandomRoom maxPlayers sid draws w = Some w1 /\
    is_Some (findPlayer sid w1) /\ findJoinable w1 = Some (a, r) /\
    rheap w1 = rheap w /\ deps_rooms w1 = deps_rooms w ++ [a].
Proof.
  intros [q Hq] Hf. unfold joinRandomRoom, resolveRoom. rewrite Hq, Hf.
  eexists. split; [done|]. unfold findPlayer, findJoinable. simpl.
  split; [by exists q|]. split; [|done].
  rewrite findRef_app. unfold findJoinable in Hf. by rewrite Hf.
Qed.

Lemma run_join_random_found maxPlayers sid draws n : forall w a r w1,
  is_Some (findPlayer sid w) -> findJoinable w = Some (a, r) ->
  run maxPlayers (replicate n (sid, EvJoinRandom draws)) w = Some w1 ->
  rheap w1 = rheap w /\ deps_rooms w1 = deps_rooms w ++ replicate n a.
Proof.
  induction n as [|n IH]; simpl; intros w a r w1 Hp Hf.
  - intros [= <-]. by rewrite app_nil_r.
  - destruct (joinRandomRoom_found maxPlayers sid draws w a r Hp Hf)
      as (w2 & -> & Hp2 & Hf2 & Hh2 & Hd2).
    intros Hrun. destruct (IH w2 a r w1 Hp2 Hf2 Hrun) as [-> ->].
    split; [done|]. by rewrite Hd2, <- app_assoc.
Qed.

(** X4: the directory keeps one entry per request.  After [n] join_random
    requests of a connection with a Player, with no join in between, the
    directory has [n] more entries, all for one and the same room, and at
    most one Room object has been created. *)
Theorem join_random_repeated maxPlayers sid draws n w w1 :
  0 < maxPlayers ->
  is_Some (findPlayer sid w) ->
  run maxPlayers (replicate n (sid, EvJoinRandom draws)) w = Some w1 ->
  exists a,
    deps_rooms w1 = deps_rooms w ++ replicate n a /\
    (length (rheap w1) <= S (length (rheap w)))%nat.
Proof.
  intros Hcap Hp. destruct n as [|n]; simpl.
  { intros [= <-]. exists 0%nat. rewrite app_nil_r. split; [done|lia]. }
  destruct (findJoinable w) as [[a r]|] eqn:Hf.
  - destruct (joinRandomRoom_found maxPlayers sid draws w a r Hp Hf)
      as (w2 & -> & Hp2 & Hf2 & Hh2 & Hd2).
    intros Hrun.
    destruct (run_join_random_found _ _ _ _ _ _ _ _ Hp2 Hf2 Hrun) as [-> ->].
    exists a. rewrite Hd2, Hh2, <- app_assoc. split; [done|lia].
  - destruct Hp as [q Hq]. unfold joinRandomRoom, resolveRoom.
    rewrite Hq, Hf. destruct (freshRoomID w draws) as [rid|]; [|done].
    set (w2 := emit _ _ _). intros Hrun.
    assert (findJoinable w2 =
              Some (length (rheap w), Room.new rid maxPlayers)) as Hf2.
    { unfold findJoinable, w2. simpl.
      apply (findRef_snoc_new _ _ _ (Room.new rid maxPlayers) Hf).
      unfold joinable, Room.getMaxPlayerCount. simpl.
      apply andb_true_iff. split; [apply Z.leb_le; lia|done]. }
    assert (is_Some (findPlayer sid w2)) as Hp2 by (by exists q).
    destruct (run_join_random_found _ _ _ _ _ _ _ _ Hp2 Hf2 Hrun) as [-> ->].
    exists (length (rheap w)). unfold w2. simpl.
    rewrite length_app, <- app_assoc. simpl. split; [done|lia].
Qed.

(** ** Nothing is ever removed *)

Lemma extends_refl w : extends w w.
Proof. split; eauto. Qed.

Lemma extends_trans w1 w2 w3 : extends w1 w2 -> extends w2 w3 -> extends w1 w3.
Proof.
  intros [Hp Hr Hpl Hrm] [Hp' Hr' Hpl' Hrm']. split.
  - by trans (deps_players w2).
  - by trans (deps_rooms w2).
  - intros a p Ha. destruct (Hpl a p Ha) as (p2 & Ha2 & Hid2).
    destruct (Hpl' a p2 Ha2) as (p3 & Ha3 & Hid3).
    exists p3. split; [done|congruence].
  - intros a r Ha. destruct (Hrm a r Ha) as (r2 & Ha2 & Hid2).
    destruct (Hrm' a r2 Ha2) as (r3 & Ha3 & Hid3).
    exists r3. split; [done|congruence].
Qed.

Lemma sim_extends w w' : sim w w' -> extends w w'.
Proof.
  intros Hs. split.
  - by rewrite (sim_deps_players _ _ Hs).
  - by rewrite (sim_deps_rooms _ _ Hs).
  - intros a p Ha. by apply (sim_player w w').
  - intros a r Ha. destruct (sim_room _ _ _ _ Hs Ha) as (r' & ? & _ & ?).
    by exists r'.
Qed.

Lemma extends_updRoom a f w :
  (forall r, Room.roomID (f r) = Room.roomID r) -> extends w (updRoom a f w).
Proof.
  intros Hf. split; simpl; [done|done|eauto|].
  intros b r Hb. destruct (decide (b = a)) as [->|Hne].
  - rewrite list_lookup_alter_eq, Hb. simpl. eauto.
  - rewrite list_lookup_alter_ne by done. eauto.
Qed.

Lemma extends_initializePlayer sid username w :
  extends w (initializePlayer sid username w).
Proof.
  unfold initializePlayer. destruct (someRef _ _ _); [apply extends_refl|].
  split; simpl; [by apply prefix_app_r|done| |eauto].
  intros a p Ha. exists p. split; [|done]. by apply lookup_app_l_Some.
Qed.

Lemma extends_resolveRoom maxPlayers draws w a rid w1 :
  resolveRoom maxPlayers draws w = Some (a, rid, w1) -> extends w w1.
Proof.
  intros H.
  destruct (resolveRoom_spec _ _ _ _ _ _ H) as (Hp & Hdp & _ & _ & Hdr & _).
  destruct (resolveRoom_rooms _ _ _ _ _ _ H) as [Hold _].
  split.
  - by rewrite Hdp.
  - rewrite Hdr. by apply prefix_app_r.
  - intros b p Hb. rewrite Hp. eauto.
  - intros b r Hb. exists r. split; [by apply Hold|done].
Qed.

Lemma extends_roomJoined sid roomID w : extends w (roomJoined sid roomID w).
Proof.
  unfold roomJoined.
  destruct (findPlayer sid w) as [[pa p]|]; [|apply sim_extends, sim_reject].
  destruct (findByID roomID w) as [[ra r]|]; [|apply sim_extends, sim_reject].
  unfold enterRoom.
  assert (extends w (leaveCurrent sid pa p w)) as H1.
  { unfold leaveCurrent.
    destruct (findContaining sid w) as [[ca c]|]; [|apply extends_refl].
    apply extends_trans with (removePlayer ca (Player.id p) w);
      [by apply extends_updRoom|].
    apply sim_extends.
    apply sim_trans with
      (socket_leave sid (Room.roomID c) (removePlayer ca (Player.id p) w));
      [apply sim_socket_leave|by apply sim_updPlayer]. }
  set (w1 := leaveCurrent sid pa p w) in *.
  apply extends_trans with w1; [done|].
  apply extends_trans with (socket_join sid (Room.roomID r) w1);
    [apply sim_extends, sim_socket_join|].
  apply extends_trans
    with (addPlayer ra pa (socket_join sid (Room.roomID r) w1));
    [by apply extends_updRoom|].
  apply sim_extends, sim_startGame.
Qed.

Lemma extends_handle maxPlayers sid ev w w1 :
  handle maxPlayers sid ev w = Some w1 -> extends w w1.
Proof.
  destruct ev; simpl.
  - intros [= <-]. apply extends_initializePlayer.
  - unfold joinRandomRoom.
    destruct (findPlayer sid w); [|intros [= <-]; apply sim_extends, sim_reject].
    destruct (resolveRoom maxPlayers draws w) as [[[a rid] w2]|] eqn:Hres;
      [|done].
    intros [= <-]. eapply extends_trans;
      [by apply (extends_resolveRoom _ _ _ _ _ _ Hres)|].
    apply sim_extends, sim_emit.
  - unfold joinRematchRoom.
    destruct (findPlayer sid w); [|intros [= <-]; apply sim_extends, sim_reject].
    destruct (findContaining sid w) as [[ra r]|];
      [|intros [= <-]; apply sim_extends, sim_reject].
    destruct (processRematchRequest ra sid w) as [b w2] eqn:Hv.
    pose proof (sim_extends _ _ (sim_processRematchRequest _ _ _ _ _ Hv)) as H2.
    destruct b; [|by intros [= <-]].
    destruct (resolveRoom maxPlayers draws w2) as [[[a rid] w3]|] eqn:Hres;
      [|done].
    intros [= <-]. eapply extends_trans; [apply H2|].
    eapply extends_trans; [by apply (extends_resolveRoom _ _ _ _ _ _ Hres)|].
    apply sim_extends, sim_emit.
  - intros [= <-]. apply extends_roomJoined.
  - intros [= <-]. apply sim_extends, sim_handleKeyboardInput.
  - intros [= <-]. apply sim_extends, sim_handleSolveComplete.
  - intros [= <-]. apply sim_extends, sim_disconnectPlayer.
Qed.

Lemma extends_run maxPlayers evs : forall w w1,
  run maxPlayers evs w = Some w1 -> extends w w1.
Proof.
  induction evs as [|[sid ev] rest IH]; simpl; intros w w1.
  - intros [= <-]. apply extends_refl.
  - destruct (handle maxPlayers sid ev w) as [w2|] eqn:Hstep; [|done].
    intros Hrun. eapply extends_trans; [|by apply IH].
    by apply (extends_handle _ _ _ _ _ Hstep).
Qed.

(** X5: no sequence of events removes or reorders anything.  The registry and
    the directory of the earlier state are prefixes of the later ones, a
    connection that had a Player still has one, and a room id that could be
    looked up can still be looked up. *)
Theorem run_only_grows maxPlayers evs w w1 :
  run maxPlayers evs w = Some w1 ->
  deps_players w `prefix_of` deps_players w1 /\
  deps_rooms w `prefix_of` deps_rooms w1 /\
  (forall sid, is_Some (findPlayer sid w) -> is_Some (findPlayer sid w1)) /\
  (forall rid, is_Some (findByID rid w) -> is_Some (findByID rid w1)).
Proof.
  intros Hrun. destruct (extends_run _ _ _ _ Hrun) as [Hp Hr Hpl Hrm].
  split; [done|]. split; [done|]. split.
  - intros sid [[a p] H]. apply findPlayer_Some in H as (Ha & Hpa & Hid).
    destruct (Hpl a p Hpa) as (p' & Hp' & Hid').
    apply (findPlayer_complete sid w1 a p'); [|done|congruence].
    destruct Hp as [k ->]. apply elem_of_app. by left.
  - intros rid [[a r] H]. apply findRef_Some in H as (Ha & Hra & Hid).
    destruct (Hrm a r Hra) as (r' & Hr' & Hid').
    destruct (findByID rid w1) as [res|] eqn:Hf; [by eexists|].
    assert (a ∈ deps_rooms w1) as Hin.
    { destruct Hr as [k ->]. apply elem_of_app. by left. }
    pose proof (proj1 (findRef_None _ _ _) Hf a r' Hin Hr') as Hno.
    simpl in Hno. rewrite Hid' in Hno. congruence.
Qed.

(** ** The registry *)

Lemma deps_enterRoom sid pa ra r w :
  deps_players (enterRoom sid pa ra r w) = deps_players w /\
  deps_rooms (enterRoom sid pa ra r w) = deps_rooms w.
Proof.
  unfold enterRoom, startGame, addPlayer, socket_join.
  case_bool_decide; simpl;
    (destruct (alter _ ra (rheap w) !! ra) as [r'|]; [|done]);
    by destruct (_ =? _).
Qed.

(** Only an initialize event of a connection without a Player changes the
    registry, and it appends the new Player object. *)
Lemma handle_registry maxPlayers sid ev w w1 :
  handle maxPlayers sid ev w = Some w1 ->
  deps_players w1 = deps_players w \/
  (findPlayer sid w = None /\
   exists u, pheap w1 = pheap w ++ [Player.new sid u] /\
             deps_players w1 = deps_players w ++ [length (pheap w)]).
Proof.
  destruct ev; simpl.
  - intros [= <-]. unfold initializePlayer.
    destruct (someRef _ _ _) eqn:Hs; [by left|]. right.
    split; [by apply someRef_false|]. by eexists.
  - intros H. left. unfold joinRandomRoom in H.
    destruct (findPlayer sid w); [|by injection H as <-].
    destruct (resolveRoom maxPlayers draws w) as [[[a rid] w2]|] eqn:Hres;
      [|done].
    injection H as <-. simpl. by apply resolveRoom_spec in Hres as (_ & ? & _).
  - intros H. left. unfold joinRematchRoom in H.
    destruct (findPlayer sid w); [|by injection H as <-].
    destruct (findContaining sid w) as [[ra r]|]; [|by injection H as <-].
    destruct (processRematchRequest ra sid w) as [b w2] eqn:Hv.
    apply processRematchRequest_frame in Hv as (_ & Hdp & _).
    destruct b; [|by injection H as <-].
    destruct (resolveRoom maxPlayers draws w2) as [[[a rid] w3]|] eqn:Hres;
      [|done].
    injection H as <-. simpl.
    apply resolveRoom_spec in Hres as (_ & ? & _). congruence.
  - intros [= <-]. left. unfold roomJoined.
    destruct (findPlayer sid w) as [[pa p]|] eqn:Hp; [|done].
    destruct (findByID roomID w) as [[ra r]|]; [|done].
    rewrite (proj1 (deps_enterRoom _ _ _ _ _)).
    apply findPlayer_Some in Hp as (_ & Hpa & _).
    by apply leaveCurrent_frame.
  - intros [= <-]. left. apply sim_handleKeyboardInput.
  - intros [= <-]. left. apply sim_handleSolveComplete.
  - intros [= <-]. left. apply sim_disconnectPlayer.
Qed.

Lemma registryOK_handle maxPlayers sid ev w w1 :
  WF w -> registryOK w -> handle maxPlayers sid ev w = Some w1 ->
  registryOK w1.
Proof.
  intros Hwf [Hnd Huniq] Hstep.
  pose proof (extends_handle _ _ _ _ _ Hstep) as [_ _ Hpl _].
  assert (forall a p1, a ∈ deps_players w -> pheap w1 !! a = Some p1 ->
            exists p, pheap w !! a = Some p /\ Player.id p = Player.id p1)
    as Hback.
  { intros a p1 Ha Hp1.
    destruct (lookup_lt_is_Some_2 _ _ (wf_reg w Hwf a Ha)) as [p Hp].
    destruct (Hpl a p Hp) as (p' & Hp' & Hid).
    exists p. split; [done|]. congruence. }
  destruct (handle_registry _ _ _ _ _ Hstep)
    as [Heq|(Hnone & u & Hheap & Hdeps)].
  - split; rewrite Heq; [done|].
    intros a b p q Ha Hb Hp Hq Hid.
    destruct (Hback a p Ha Hp) as (p0 & Hp0 & Hid0).
    destruct (Hback b q Hb Hq) as (q0 & Hq0 & Hid1).
    apply (Huniq a b p0 q0); try done. congruence.
  - assert (length (pheap w) ∉ deps_players w) as Hnew.
    { intros Hin. apply (wf_reg w Hwf) in Hin. lia. }
    assert (forall a p1, a ∈ deps_players w -> pheap w1 !! a = Some p1 ->
              Player.id p1 <> sid) as Hold.
    { intros a p1 Ha Hp1 Hid.
      destruct (Hback a p1 Ha Hp1) as (p0 & Hp0 & Hid0).
      destruct (findPlayer_complete sid w a p0 Ha Hp0) as [res Hres];
        congruence. }
    assert (forall q, pheap w1 !! length (pheap w) = Some q ->
              Player.id q = sid) as Hlast.
    { intros q. rewrite Hheap, lookup_app_r by lia.
      rewrite Nat.sub_diag. by intros [= <-]. }
    split; rewrite Hdeps.
    + apply NoDup_app. split; [done|]. split; [|apply NoDup_singleton].
      intros x Hx Hx'. apply list_elem_of_singleton in Hx' as ->. done.
    + intros a b p q Ha Hb Hp Hq Hid.
      apply elem_of_app in Ha as [Ha|Ha]; apply elem_of_app in Hb as [Hb|Hb].
      * destruct (Hback a p Ha Hp) as (p0 & Hp0 & Hid0).
        destruct (Hback b q Hb Hq) as (q0 & Hq0 & Hid1).
        apply (Huniq a b p0 q0); try done. congruence.
      * apply list_elem_of_singleton in Hb as ->.
        destruct (Hold a p Ha Hp). rewrite Hid. by apply Hlast.
      * apply list_elem_of_singleton in Ha as ->.
        destruct (Hold b q Hb Hq). rewrite <- Hid. by apply Hlast.
      * apply list_elem_of_singleton in Ha as ->.
        by apply list_elem_of_singleton in Hb as ->.
Qed.

Lemma reachable_registryOK maxPlayers w : reachable maxPlayers w -> registryOK w.
Proof.
  induction 1 as [|w sid ev w1 Hreach IH Hstep].
  - split; [apply NoDup_nil_2|]. intros a b p q Ha. by apply elem_of_nil in Ha.
  - apply (registryOK_handle maxPlayers sid ev w); [|done..].
    by apply (reachable_WF maxPlayers).
Qed.

(** X6: in every reachable state the registry holds at most one Player per
    connection id (the guard of lines 24-27): no Player object is listed
    twice, two entries with the same id are the same object, and so the
    Player that a lookup by id returns is the only one with that id. *)
Theorem registry_one_player_per_id maxPlayers w :
  reachable maxPlayers w ->
  NoDup (deps_players w) /\
  (forall a b p q,
     a ∈ deps_players w -> b ∈ deps_players w ->
     pheap w !! a = Some p -> pheap w !! b = Some q ->
     Player.id p = Player.id q -> a = b) /\
  (forall sid a p b q,
     findPlayer sid w = Some (a, p) -> b ∈ deps_players w ->
     pheap w !! b = Some q -> Player.id q = sid -> b = a /\ q = p).
Proof.
  intros Hreach. destruct (reachable_registryOK _ _ Hreach) as [Hnd Huniq].
  split; [done|]. split; [done|].
  intros sid a p b q Hf Hb Hq Hid.
  apply findPlayer_Some in Hf as (Ha & Hp & Hidp).
  assert (b = a) as -> by (apply (Huniq b a q p); congruence).
  split; [done|congruence].
Qed.

(** X7: an initialize event of a connection without a Player registers it:
    the lookup by the connection's id then returns the new Player, whose
    name is the given one, or "an unnamed cuber" for the empty name; the
    lookup of every other id gives what it gave before, and the connection
    is sent 'player:initialized' with its id. *)
Theorem initializePlayer_registers maxPlayers sid username w :
  reachable maxPlayers w ->
  findPlayer sid w = None ->
  findPlayer sid (initializePlayer sid username w) =
    Some (length (pheap w),
          Player.new sid (if String.eqb username "" then "an unnamed cuber"
                          else username)) /\
  (forall s, s <> sid ->
     findPlayer s (initializePlayer sid username w) = findPlayer s w) /\
  outbox (initializePlayer sid username w) =
    outbox w ++ [(ToSocket sid, MsgPlayerInitialized sid)].
Proof.
  intros Hreach Hnone. pose proof (reachable_WF _ _ Hreach) as Hwf.
  unfold initializePlayer.
  rewrite (proj2 (someRef_false _ _ _) Hnone).
  unfold findPlayer. simpl. split; [|split; [|done]].
  - apply findRef_snoc_new; [done|]. apply String.eqb_refl.
  - intros s Hne. rewrite findRef_app.
    assert (findRef (pheap w ++ [Player.new sid
                       (if String.eqb username "" then "an unnamed cuber"
                        else username)]) (hasID s) (deps_players w)
            = findRef (pheap w) (hasID s) (deps_players w)) as ->.
    { apply findRef_ext; [|done].
      intros a Ha. apply lookup_app_l. by apply (wf_reg w Hwf). }
    destruct (findRef (pheap w) (hasID s) (deps_players w)); [done|].
    simpl. rewrite lookup_app_r by lia. rewrite Nat.sub_diag. simpl.
    unfold hasID. simpl.
    destruct (String.eqb_spec sid s); [congruence|done].
Qed.

(** ** Lookups in reachable states *)

(** X8: in every reachable state a Room object is found under its id: the
    directory search by a room's id returns that very object, so two Room
    objects never share an id (lines 62-66 draw until the id is free, and
    line 71 registers every room). *)
Theorem findByID_returns_room maxPlayers w a r :
  reachable maxPlayers w ->
  rheap w !! a = Some r ->
  findByID (Room.roomID r) w = Some (a, r) /\
  (forall b r', rheap w !! b = Some r' ->
     Room.roomID r' = Room.roomID r -> b = a).
Proof.
  intros Hreach Hr. pose proof (reachable_WF _ _ Hreach) as Hwf. split.
  - apply (findByID_complete _ w a r Hwf); [|done..].
    apply (wf_dir w Hwf). by apply lookup_lt_is_Some_1.
  - intros b r' Hb Hid. by apply (wf_ids w Hwf b a r' r).
Qed.

(** X9: in every reachable state an id that some room lists belongs to a
    registered Player, and the directory search by that id returns exactly
    the room that lists it; so the handlers that start from these two
    searches (rematch, solve, disconnect) never miss an occupant. *)
Theorem occupant_is_found maxPlayers w ra sid :
  reachable maxPlayers w ->
  occupies w ra sid ->
  is_Some (findPlayer sid w) /\
  exists r, findContaining sid w = Some (ra, r).
Proof.
  intros Hreach Hocc. pose proof (reachable_WF _ _ Hreach) as Hwf.
  split; [|by apply findContaining_complete].
  destruct Hocc as (r & a & p & Hr & Ha & Hp & Hid).
  apply (findPlayer_complete sid w a p); [|done..].
  by apply (wf_occ w Hwf ra r).
Qed.

(** ** Who changes the occupant lists *)

Lemma occupies_initializePlayer sid username w x s :
  WF w -> occupies (initializePlayer sid username w) x s <-> occupies w x s.
Proof.
  intros Hwf. unfold initializePlayer. destruct (someRef _ _ _); [done|].
  unfold occupies. simpl. split.
  - intros (r & a & p & Hr & Ha & Hp & Hid). exists r, a, p.
    split; [done|]. split; [done|]. split; [|done].
    rewrite lookup_app_l in Hp; [done|].
    apply (wf_reg w Hwf). by apply (wf_occ w Hwf x r).
  - intros (r & a & p & Hr & Ha & Hp & Hid). exists r, a, p.
    split; [done|]. split; [done|]. split; [|done].
    by apply lookup_app_l_Some.
Qed.

Lemma occupies_resolveRoom maxPlayers draws w a rid w1 x s :
  resolveRoom maxPlayers draws w = Some (a, rid, w1) ->
  occupies w1 x s <-> occupies w x s.
Proof.
  intros Hres.
  destruct (resolveRoom_spec _ _ _ _ _ _ Hres) as (Hp & _).
  destruct (resolveRoom_rooms _ _ _ _ _ _ Hres) as [Hold Hnew].
  unfold occupies. rewrite Hp. split.
  - intros (r & b & p & Hr & Hb & Hpb & Hid).
    destruct (Hnew x r Hr) as [Hr0|Hempty].
    + by exists r, b, p.
    + rewrite Hempty in Hb. by apply elem_of_nil in Hb.
  - intros (r & b & p & Hr & Hb & Hpb & Hid). exists r, b, p.
    split; [by apply Hold|done].
Qed.

(** Every event but the join confirmation leaves the occupant lists alone. *)
Lemma handle_keeps_membership maxPlayers sid ev w w1 :
  WF w -> handle maxPlayers sid ev w = Some w1 ->
  (forall roomID, ev <> EvJoined roomID) ->
  forall x s, occupies w1 x s <-> occupies w x s.
Proof.
  intros Hwf Hstep Hev x s. destruct ev; simpl in Hstep.
  - injection Hstep as <-. by apply occupies_initializePlayer.
  - unfold joinRandomRoom in Hstep.
    destruct (findPlayer sid w); [|by injection Hstep as <-].
    destruct (resolveRoom maxPlayers draws w) as [[[a rid] w2]|] eqn:Hres;
      [|done].
    injection Hstep as <-.
    rewrite <- (occupies_resolveRoom _ _ _ _ _ _ x s Hres).
    apply sim_occupies, sim_emit.
  - unfold joinRematchRoom in Hstep.
    destruct (findPlayer sid w); [|by injection Hstep as <-].
    destruct (findContaining sid w) as [[ra r]|];
      [|by injection Hstep as <-].
    destruct (processRematchRequest ra sid w) as [b w2] eqn:Hv.
    pose proof (sim_processRematchRequest _ _ _ _ _ Hv) as Hs.
    destruct b; [|injection Hstep as <-; by apply sim_occupies].
    destruct (resolveRoom maxPlayers draws w2) as [[[a rid] w3]|] eqn:Hres;
      [|done].
    injection Hstep as <-.
    rewrite <- (sim_occupies _ _ x s Hs).
    rewrite <- (occupies_resolveRoom _ _ _ _ _ _ x s Hres).
    apply sim_occupies, sim_emit.
  - by destruct (Hev roomID).
  - injection Hstep as <-. apply sim_occupies, sim_handleKeyboardInput.
  - injection Hstep as <-. apply sim_occupies, sim_handleSolveComplete.
  - injection Hstep as <-. apply sim_occupies, sim_disconnectPlayer.
Qed.

(** X10: an event changes the room membership of the delivering connection
    only, and only the join confirmation changes any membership at all:
    after every other event each room lists exactly the ids it listed
    before. *)
Theorem membership_changes_only_by_joined maxPlayers sid ev w w1 :
  reachable maxPlayers w ->
  handle maxPlayers sid ev w = Some w1 ->
  (forall x s, s <> sid -> occupies w1 x s <-> occupies w x s) /\
  ((forall roomID, ev <> EvJoined roomID) ->
   forall x s, occupies w1 x s <-> occupies w x s).
Proof.
  intros Hreach Hstep. pose proof (reachable_WF _ _ Hreach) as Hwf.
  split; [|by apply (handle_keeps_membership maxPlayers sid ev w w1)].
  intros x s Hne.
  destruct ev;
    try (by apply (handle_keeps_membership maxPlayers sid _ w w1 Hwf Hstep)).
  simpl in Hstep. injection Hstep as <-.
  destruct (findPlayer sid w) as [[pa p]|] eqn:Hp;
    [|unfold roomJoined; rewrite Hp; apply sim_occupies, sim_reject].
  destruct (findByID roomID w) as [[ra r]|] eqn:Hr;
    [|unfold roomJoined; rewrite Hp, Hr; apply sim_occupies, sim_reject].
  rewrite (roomJoined_occupies sid roomID w pa p ra r x s Hwf Hp Hr).
  split; [intros [[? _]|[_ ?]]; done|]. intros H. by right.
Qed.

(** X11: discovery followed by confirmation works.  When a connection with a
    Player is answered by join_random and then confirms the id it was sent,
    the confirmation is not rejected: the connection's id is listed by the
    announced room and by no other, and the socket is in that room's
    channel. *)
Theorem join_random_then_joined maxPlayers sid draws w w1 :
  reachable maxPlayers w ->
  is_Some (findPlayer sid w) ->
  joinRandomRoom maxPlayers sid draws w = Some w1 ->
  exists a rid,
    deps_rooms w1 = deps_rooms w ++ [a] /\
    outbox w1 = outbox w ++ [(ToChannel sid, MsgRoomFound rid)] /\
    (forall x, occupies (roomJoined sid rid w1) x sid <-> x = a) /\
    (sid, rid) ∈ channels (roomJoined sid rid w1).
Proof.
  intros Hreach [[pa p] Hp] Hjoin.
  pose proof (reachable_WF _ _ Hreach) as Hwf.
  pose proof (WF_joinRandomRoom _ _ _ _ _ Hjoin Hwf) as Hwf1.
  unfold joinRandomRoom in Hjoin. rewrite Hp in Hjoin.
  destruct (resolveRoom maxPlayers draws w) as [[[a rid] w2]|] eqn:Hres;
    [|done].
  injection Hjoin as <-.
  destruct (resolveRoom_spec _ _ _ _ _ _ Hres)
    as (Hph & Hdp & _ & Hout & Hdir & (r & Hra & Hrid) & _).
  set (w1 := emit (ToChannel sid) (MsgRoomFound rid) w2) in *.
  assert (findPlayer sid w1 = Some (pa, p)) as Hp1.
  { unfold findPlayer, w1. simpl. by rewrite Hph, Hdp. }
  assert (findByID rid w1 = Some (a, r)) as Hr1.
  { apply (findByID_complete rid w1 a r Hwf1); [|done..].
    unfold w1. simpl. rewrite Hdir. apply elem_of_app. right.
    by apply list_elem_of_singleton. }
  exists a, rid. split; [done|]. split; [by unfold w1; simpl; rewrite Hout|].
  split.
  - intros x.
    rewrite (roomJoined_occupies sid rid w1 pa p a r x sid Hwf1 Hp1 Hr1).
    split; [intros [[_ ->]|[? _]]; done|]. intros ->. by left.
  - unfold roomJoined. rewrite Hp1, Hr1. rewrite <- Hrid.
    apply channels_enterRoom.
Qed.

(** ** Room channels *)

Lemma channels_enterRoom_eq sid pa ra r w :
  channels (enterRoom sid pa ra r w) =
  channels (socket_join sid (Room.roomID r) w).
Proof.
  unfold enterRoom, startGame, addPlayer. simpl.
  destruct (alter _ ra _ !! ra) as [r'|]; [|done]. by destruct (_ =? _).
Qed.

Lemma channels_socket_join sid name w c :
  c ∈ channels (socket_join sid name w) <-> c ∈ channels w \/ c = (sid, name).
Proof.
  unfold socket_join. case_bool_decide as Hin; simpl.
  - split; [by left|]. by intros [?| ->].
  - rewrite elem_of_app, list_elem_of_singleton. done.
Qed.

Lemma channels_leaveCurrent sid pa p w c :
  c ∈ channels (leaveCurrent sid pa p w) <->
  c ∈ channels w /\
  forall ca cr, findContaining sid w = Some (ca, cr) ->
                c <> (sid, Room.roomID cr).
Proof.
  unfold leaveCurrent. destruct (findContaining sid w) as [[ca cr]|]; simpl.
  - rewrite list_elem_of_filter. split.
    + intros [Hne Hin]. split; [done|]. by intros ? ? [= <- <-].
    + intros [Hin Hne]. split; [|done]. by apply (Hne ca cr).
  - split; [|by intros [? _]]. intros H. by split.
Qed.

(** X12: after a join confirmation that is not rejected the socket is in the
    channel named by the target room's id, and no longer in the channel of
    the room it left when that has another id; the channels of every other
    socket are as before. *)
Theorem roomJoined_channels sid roomID w pa p ra r :
  findPlayer sid w = Some (pa, p) ->
  findByID roomID w = Some (ra, r) ->
  (sid, roomID) ∈ channels (roomJoined sid roomID w) /\
  (forall ca c, findContaining sid w = Some (ca, c) ->
     Room.roomID c <> roomID ->
     (sid, Room.roomID c) ∉ channels (roomJoined sid roomID w)) /\
  (forall s name, s <> sid ->
     (s, name) ∈ channels (roomJoined sid roomID w) <->
     (s, name) ∈ channels w).
Proof.
  intros Hp Hr. unfold roomJoined. rewrite Hp, Hr.
  pose proof (findRef_Some _ _ _ _ _ Hr) as (_ & _ & Hid).
  apply String.eqb_eq in Hid. rewrite channels_enterRoom_eq, Hid.
  split; [|split].
  - apply channels_socket_join. by right.
  - intros ca c Hc Hne Hin.
    apply channels_socket_join in Hin as [Hin|[= ?]]; [|done].
    apply channels_leaveCurrent in Hin as [_ Hnot].
    by apply (Hnot ca c).
  - intros s name Hne.
    rewrite channels_socket_join, channels_leaveCurrent. split.
    + intros [[? _]|[= ? _]]; done.
    + intros Hin. left. split; [done|]. intros ca cr _ [= ? _]. done.
Qed.

Lemma channels_finishIfDone ra w : channels (finishIfDone ra w) = channels w.
Proof.
  unfold finishIfDone. destruct (rheap w !! ra) as [r|]; [|done].
  by destruct (_ && _).
Qed.

Lemma channels_updOccupants ra sid f w :
  channels (updOccupants ra sid f w) = channels w.
Proof. unfold updOccupants. by destruct (rheap w !! ra). Qed.

(** Only the join confirmation calls [socket.join] or [socket.leave]. *)
Lemma handle_keeps_channels maxPlayers sid ev w w1 :
  handle maxPlayers sid ev w = Some w1 ->
  (forall roomID, ev <> EvJoined roomID) ->
  channels w1 = channels w.
Proof.
  intros Hstep Hev. destruct ev; simpl in Hstep.
  - injection Hstep as <-. unfold initializePlayer. by destruct (someRef _ _ _).
  - unfold joinRandomRoom in Hstep.
    destruct (findPlayer sid w); [|by injection Hstep as <-].
    destruct (resolveRoom maxPlayers draws w) as [[[a rid] w2]|] eqn:Hres;
      [|done].
    injection Hstep as <-. simpl.
    by apply resolveRoom_spec in Hres as (_ & _ & ? & _).
  - unfold joinRematchRoom in Hstep.
    destruct (findPlayer sid w); [|by injection Hstep as <-].
    destruct (findContaining sid w) as [[ra r]|];
      [|by injection Hstep as <-].
    destruct (processRematchRequest ra sid w) as [b w2] eqn:Hv.
    apply processRematchRequest_frame in Hv as (_ & _ & _ & Hch & _).
    destruct b; [|by injection Hstep as <-].
    destruct (resolveRoom maxPlayers draws w2) as [[[a rid] w3]|] eqn:Hres;
      [|done].
    injection Hstep as <-. simpl.
    apply resolveRoom_spec in Hres as (_ & _ & ? & _). congruence.
  - by destruct (Hev roomID).
  - injection Hstep as <-. unfold handleKeyboardInput, handleInput.
    destruct (findContaining socketID w) as [[ra r]|]; [|done].
    by destruct (rheap w !! ra).
  - injection Hstep as <-. unfold handleSolveComplete, playerSolveComplete.
    destruct (findContaining sid w) as [[ra r]|]; [|done].
    destruct (String.eqb sid socketID); [|done].
    destruct (rheap w !! ra); [|done].
    rewrite channels_finishIfDone. simpl. apply channels_updOccupants.
  - injection Hstep as <-. unfold disconnectPlayer, playerDNF.
    destruct (findPlayer sid w) as [[pa p]|]; [|done].
    destruct (findContaining sid w) as [[ra r]|]; [|done].
    rewrite channels_finishIfDone. apply channels_updOccupants.
Qed.

Lemma channelsOK_handle maxPlayers sid ev w w1 :
  WF w -> channelsOK w -> handle maxPlayers sid ev w = Some w1 ->
  channelsOK w1.
Proof.
  intros Hwf Hok Hstep.
  pose proof (extends_handle _ _ _ _ _ Hstep) as [_ _ _ Hrooms].
  assert (forall s c, (s, c) ∈ channels w ->
            (forall x, occupies w x s -> occupies w1 x s) ->
            exists ra r, rheap w1 !! ra = Some r /\ Room.roomID r = c /\
                         occupies w1 ra s) as Hkeep.
  { intros s c Hin Hocc. destruct (Hok s c Hin) as (x & r0 & Hr0 & Hid & Hx).
    destruct (Hrooms x r0 Hr0) as (r1 & Hr1 & Hid1).
    exists x, r1. split; [done|]. split; [congruence|]. by apply Hocc. }
  assert ((exists roomID, ev = EvJoined roomID) \/
          (forall roomID, ev <> EvJoined roomID)) as [[roomID ->]|Hev'].
  { destruct ev; try (right; intros ?; discriminate). left. by eexists. }
  - simpl in Hstep. injection Hstep as <-. intros s c Hin.
    destruct (findPlayer sid w) as [[pa p]|] eqn:Hp;
      [|unfold roomJoined in *; rewrite Hp in *;
        apply (Hkeep s c Hin); intros x; apply sim_occupies, sim_reject].
    destruct (findByID roomID w) as [[ra r]|] eqn:Hr;
      [|unfold roomJoined in *; rewrite Hp, Hr in *;
        apply (Hkeep s c Hin); intros x; apply sim_occupies, sim_reject].
    pose proof (findRef_Some _ _ _ _ _ Hr) as (_ & Hra & Hid).
    apply String.eqb_eq in Hid.
    assert (forall x t, occupies (roomJoined sid roomID w) x t <->
              (t = sid /\ x = ra) \/ (t <> sid /\ occupies w x t)) as Hocc
      by (intros x t; by apply (roomJoined_occupies sid roomID w pa p ra r)).
    unfold roomJoined in Hin. rewrite Hp, Hr in Hin.
    rewrite channels_enterRoom_eq in Hin.
    apply channels_socket_join in Hin as [Hin|[= -> ->]].
    + apply channels_leaveCurrent in Hin as [Hin Hleft].
      destruct (decide (s = sid)) as [->|Hne].
      * destruct (Hok sid c Hin) as (x & r0 & Hr0 & Hid0 & Hx).
        destruct (findContaining_complete sid w x Hwf Hx) as [cr Hcr].
        pose proof (findContaining_Some _ _ _ _ Hcr) as (_ & Hx' & _).
        destruct (Hleft x cr Hcr). congruence.
      * apply (Hkeep s c Hin). intros x Hx. apply Hocc. by right.
    + destruct (Hrooms ra r Hra) as (r1 & Hr1 & Hid1).
      exists ra, r1. split; [done|]. split; [done|]. apply Hocc. by left.
  - intros s c Hin.
    rewrite (handle_keeps_channels _ _ _ _ _ Hstep Hev') in Hin.
    apply (Hkeep s c Hin). intros x.
    by apply (handle_keeps_membership maxPlayers sid ev w w1).
Qed.

Lemma reachable_channelsOK maxPlayers w : reachable maxPlayers w -> channelsOK w.
Proof.
  induction 1 as [|w sid ev w1 Hreach IH Hstep].
  - intros s c Hin. by apply elem_of_nil in Hin.
  - apply (channelsOK_handle maxPlayers sid ev w); [|done..].
    by apply (reachable_WF maxPlayers).
Qed.

(** X13: in every reachable state the handler has a socket in the channel of
    a room only while that room lists the socket's id, and so in the channel
    of at most one room: what is sent on a room's channel (lines 117 and
    153) goes to occupants of that room only. *)
Theorem channels_follow_membership maxPlayers w :
  reachable maxPlayers w ->
  (forall s c, (s, c) ∈ channels w ->
     exists ra r, rheap w !! ra = Some r /\ Room.roomID r = c /\
                  occupies w ra s) /\
  (forall s c c', (s, c) ∈ channels w -> (s, c') ∈ channels w -> c = c').
Proof.
  intros Hreach. pose proof (reachable_WF _ _ Hreach) as Hwf.
  pose proof (reachable_channelsOK _ _ Hreach) as Hok.
  split; [done|]. intros s c c' Hc Hc'.
  destruct (Hok s c Hc) as (x & r & Hr & <- & Hx).
  destruct (Hok s c' Hc') as (y & r' & Hr' & <- & Hy).
  assert (x = y) as -> by (by apply (wf_one w Hwf s)).
  congruence.
Qed.

(** ** Connections without a Player *)

(** X14: in a reachable state a connection without a Player can do two
    things only: register, and send keyboard input (whose room is searched
    by the claimed sender, not by the socket).  Every other event it sends
    leaves the state as it is, apart from the 'join:invalid' it may be
    answered with. *)
Theorem unregistered_connection_is_inert maxPlayers sid ev w w1 :
  reachable maxPlayers w ->
  findPlayer sid w = None ->
  handle maxPlayers sid ev w = Some w1 ->
  (forall username, ev <> EvInitialize username) ->
  (forall socketID key, ev <> EvKeyboardInput socketID key) ->
  w1 = w \/ w1 = reject sid w.
Proof.
  intros Hreach Hnone Hstep Hinit Hkey.
  pose proof (reachable_WF _ _ Hreach) as Hwf.
  destruct ev; simpl in Hstep.
  - by destruct (Hinit username).
  - unfold joinRandomRoom in Hstep. rewrite Hnone in Hstep.
    injection Hstep as <-. by right.
  - unfold joinRematchRoom in Hstep. rewrite Hnone in Hstep.
    injection Hstep as <-. by right.
  - unfold roomJoined in Hstep. rewrite Hnone in Hstep.
    injection Hstep as <-. by right.
  - by destruct (Hkey socketID key).
  - left. injection Hstep as <-. apply handleSolveComplete_noroom.
    destruct (findContaining sid w) as [[ra r]|] eqn:Hc; [|done].
    apply findContaining_Some in Hc as (_ & Hr & r0 & a & p & Hr0 & Ha & Hp & Hid).
    destruct (findPlayer_complete sid w a p) as [res Hres];
      [by apply (wf_occ w Hwf ra r0)|done|done|].
    rewrite Hnone in Hres. discriminate.
  - unfold disconnectPlayer in Hstep. rewrite Hnone in Hstep.
    injection Hstep as <-. by right.
Qed.

(** ** Instances of the further properties *)

Lemma sampleWorld_lists_b : occupies sampleWorld 0 "b".
Proof.
  exists (Room.mk "00000" [0%nat; 1%nat] GAME_IN_PROGRESS 2 []), 1%nat,
         (Player.new "b" "bob").
  split; [reflexivity|]. split; [|split; reflexivity].
  right. left.
Qed.

Lemma resolveRoom_first_fit_witness :
  someRoomID "abcde" sampleWorld = false /\
  someRoomID "00000" sampleWorld = true.
Proof.
  split; [|reflexivity].
  edestruct (resolveRoom_first_fit 2 ["00000"; "abcde"] sampleWorld 1 "abcde")
    as [(r & pre & post & Hr & _)|(_ & Hfree & _)];
    [vm_compute; reflexivity| |exact Hfree].
  vm_compute in Hr. discriminate.
Defined.

Lemma join_random_repeated_witness :
  exists w1 a,
    run 2 (replicate 3 ("a", EvJoinRandom ["00000"])) loneWorld = Some w1 /\
    deps_rooms w1 = replicate 3 a.
Proof.
  eexists.
  edestruct (join_random_repeated 2 "a" ["00000"] 3 loneWorld) as (a & Hd & _);
    [lia|vm_compute; eexists; reflexivity|vm_compute; reflexivity|].
  exists a. split; [vm_compute; reflexivity|exact Hd].
Defined.

Lemma run_only_grows_witness :
  exists w1,
    run 2 [("a", EvJoinRandom ["00000"]); ("a", EvJoined "00000");
           ("a", EvDisconnect)] loneWorld = Some w1 /\
    is_Some (findPlayer "a" w1).
Proof.
  eexists. split; [vm_compute; reflexivity|].
  edestruct (run_only_grows 2
               [("a", EvJoinRandom ["00000"]); ("a", EvJoined "00000");
                ("a", EvDisconnect)] loneWorld) as (_ & _ & Hp & _);
    [vm_compute; reflexivity|].
  apply Hp. vm_compute. eexists. reflexivity.
Defined.

Lemma registry_one_player_per_id_witness : NoDup (deps_players sampleWorld).
Proof.
  apply (registry_one_player_per_id 2 sampleWorld sampleWorld_reachable).
Defined.

Lemma initializePlayer_registers_witness :
  findPlayer "c" (initializePlayer "c" "" sampleWorld) =
    Some (2%nat, Player.new "c" "an unnamed cuber").
Proof.
  apply (initializePlayer_registers 2 "c" "" sampleWorld sampleWorld_reachable).
  vm_compute. reflexivity.
Defined.

Lemma findByID_returns_room_witness :
  findByID "00000" sampleWorld =
    Some (0%nat, Room.mk "00000" [0%nat; 1%nat] GAME_IN_PROGRESS 2 []).
Proof.
  apply (findByID_returns_room 2 sampleWorld 0
           (Room.mk "00000" [0%nat; 1%nat] GAME_IN_PROGRESS 2 [])
           sampleWorld_reachable).
  vm_compute. reflexivity.
Defined.

Lemma occupant_is_found_witness :
  is_Some (findPlayer "b" sampleWorld) /\
  exists r, findContaining "b" sampleWorld = Some (0%nat, r).
Proof.
  apply (occupant_is_found 2 sampleWorld 0 "b" sampleWorld_reachable).
  apply sampleWorld_lists_b.
Defined.

Lemma membership_changes_only_by_joined_witness :
  occupies (roomJoined "a" "00000" sampleWorld) 0 "b".
Proof.
  pose proof (membership_changes_only_by_joined 2 "a" (EvJoined "00000")
                sampleWorld (roomJoined "a" "00000" sampleWorld)
                sampleWorld_reachable eq_refl) as [Hothers _].
  apply Hothers; [discriminate|apply sampleWorld_lists_b].
Defined.

Lemma join_random_then_joined_witness :
  exists w1 rid,
    joinRandomRoom 2 "a" ["00000"] loneWorld = Some w1 /\
    ("a", rid) ∈ channels (roomJoined "a" rid w1).
Proof.
  eexists.
  edestruct (join_random_then_joined 2 "a" ["00000"] loneWorld)
    as (a & rid & _ & _ & _ & Hch);
    [apply loneWorld_reachable|vm_compute; eexists; reflexivity
    |vm_compute; reflexivity|].
  exists rid. split; [vm_compute; reflexivity|exact Hch].
Defined.

Lemma roomJoined_channels_witness :
  ("b", "00000") ∈ channels (roomJoined "b" "00000" sampleWorld).
Proof.
  edestruct (roomJoined_channels "b" "00000" sampleWorld) as (Hin & _);
    [vm_compute; reflexivity..|].
  exact Hin.
Defined.

Lemma channels_follow_membership_witness :
  exists ra r, rheap sampleWorld !! ra = Some r /\ Room.roomID r = "00000" /\
               occupies sampleWorld ra "a".
Proof.
  apply (channels_follow_membership 2 sampleWorld sampleWorld_reachable).
  left.
Defined.

Lemma unregistered_connection_is_inert_witness :
  roomJoined "z" "00000" sampleWorld = sampleWorld \/
  roomJoined "z" "00000" sampleWorld = reject "z" sampleWorld.
Proof.
  apply (unregistered_connection_is_inert 2 "z" (EvJoined "00000") sampleWorld
           (roomJoined "z" "00000" sampleWorld) sampleWorld_reachable);
    [vm_compute; reflexivity|reflexivity|intros ?; discriminate
    |intros ? ?; discriminate].
Defined.
